(** * gulp-labelizer: a shallow embedding of [index.js]

    The plugin keeps a process-wide [Set] of content hashes, loaded from
    [labeled.json] when the module is required, and exports three object
    streams: [notLabled] (drop files whose hash is recorded), [label]
    (record the hash of a file) and [dump] (rewrite [labeled.json]).

    Layout of the development:
    - [JS]       strings as UTF-16 code units, completions, the values that
                 [JSON.parse] can build;
    - [JSSet]    the insertion-ordered [Set] with [SameValueZero] membership;
    - [JSON]     [JSON.parse] (a recursive-descent parser of the JSON grammar)
                 and [JSON.stringify (value, null, 2)];
    - the module itself: [_getLabeledFiles], [_filterNotLabled], [_labelFile],
      [_dumpToRecordJSON], [createThroughStream], [Labelizer];
    - the properties of the specification. *)

From Stdlib Require Import List NArith ZArith Bool Arith Lia String Ascii Permutation.
Import ListNotations.

Set Implicit Arguments.

(** ** Strings, errors and values of the host language *)

Module JS.

(** A JavaScript string is a sequence of 16-bit code units. *)
Definition jsstring := list N.

(** The code units of an ASCII literal. *)
Definition lit (s : string) : jsstring :=
  map N_of_ascii (list_ascii_of_string s).

(** Every code unit fits in 16 bits. *)
Definition valid_string (s : jsstring) : Prop := Forall (fun c => (c < 65536)%N) s.

Definition jsstring_eqb (a b : jsstring) : bool :=
  if list_eq_dec N.eq_dec a b then true else false.

(** The native errors this module can raise. *)
Inductive JSError : Type :=
| SyntaxError                      (* JSON.parse on text outside the grammar *)
| TypeError                        (* new Set(x) with x not iterable;
                                      hash.update(x) with x not a buffer *)
| ReferenceError (ident : string). (* an identifier with no binding *)

(** A completion: the statement returned a value or threw. *)
Inductive Completion (A : Type) : Type :=
| Normal (a : A)
| Throw (e : JSError).
Arguments Normal {A} a.
Arguments Throw {A} e.

(** IEEE-754 doubles are not modelled: what the program needs from them is
    an interface.  [StringToNumber] reads a lexeme of the JSON number
    grammar, [Number_sameValueZero] is the comparison [Set] uses and
    [Number_toJSON] is what [JSON.stringify] prints for a number (the text
    [null] for a non-finite one). *)
Class Float64 : Type := {
  Number : Type;
  StringToNumber : jsstring -> Number;
  Number_sameValueZero : Number -> Number -> bool;
  Number_toJSON : Number -> jsstring
}.

(** The values [JSON.parse] builds.  An object keeps its own properties in
    creation order. *)
#[warnings="-register-all"]
Inductive value `{Float64} : Type :=
| JNull
| JBool (b : bool)
| JNum (n : Number)
| JStr (s : jsstring)
| JArr (elems : list value)
| JObj (props : list (jsstring * value)).

End JS.
Export JS.

(** ** The built-in [Set] *)

Module JSSet.
Section WithNumbers.
Context `{Float64}.

(** A [Set] keeps its entries in insertion order; the list never holds two
    entries that [SameValueZero] identifies. *)
Definition t := list value.

(** [SameValueZero].  Arrays and objects are compared by identity, and every
    array or object [JSON.parse] returns is a fresh one, so two of them are
    never the same value.  ([Set.prototype.add] stores [+0] for [-0]; both
    are the same entry for [sameValueZero] and both print as [0], so the
    entries are kept as they were given.) *)
Definition sameValueZero (x y : value) : bool :=
  match x, y with
  | JNull, JNull => true
  | JBool a, JBool b => Bool.eqb a b
  | JNum a, JNum b => Number_sameValueZero a b
  | JStr a, JStr b => jsstring_eqb a b
  | _, _ => false
  end.

(** [set.has(v)] *)
Definition has (s : t) (v : value) : bool := existsb (sameValueZero v) s.

(** [set.add(v)]: appends [v] unless an entry is already the same value. *)
Definition add (s : t) (v : value) : t := if has s v then s else s ++ [v].

(** [set.size] *)
Definition size (s : t) : nat := List.length s.

(** [[...set]]: the entries in insertion order. *)
Definition spread (s : t) : list value := s.

Definition add_all (s : t) (l : list value) : t := fold_left add l s.

Definition is_high_surrogate (c : N) : bool := (55296 <=? c)%N && (c <=? 56319)%N.
Definition is_low_surrogate (c : N) : bool := (56320 <=? c)%N && (c <=? 57343)%N.

(** The string iterator: one string per code point, a surrogate pair staying
    together. *)
Fixpoint code_points (s : jsstring) : list jsstring :=
  match s with
  | [] => []
  | c :: r =>
    match r with
    | d :: r' =>
      if is_high_surrogate c && is_low_surrogate d
      then [c; d] :: code_points r'
      else [c] :: code_points r
    | [] => [[c]]
    end
  end.

(** [new Set(iterable)]: [null] gives the empty set, a string is iterated
    by code point, an array by element; a boolean, a number or a plain
    object has no [Symbol.iterator] and the constructor throws. *)
Definition construct (iterable : value) : Completion t :=
  match iterable with
  | JNull => Normal []
  | JStr s => Normal (add_all [] (map JStr (code_points s)))
  | JArr elems => Normal (add_all [] elems)
  | JBool _ | JNum _ | JObj _ => Throw TypeError
  end.

End WithNumbers.
End JSSet.

(** ** [JSON.parse] and [JSON.stringify] *)

Module JSON.

Local Open Scope N_scope.

(** Code units the grammar names. *)
Definition BACKSPACE : N := 8.
Definition TAB : N := 9.
Definition LF : N := 10.
Definition FF : N := 12.
Definition CR : N := 13.
Definition SPACE : N := 32.
Definition DQUOTE : N := 34.
Definition PLUS : N := 43.
Definition COMMA : N := 44.
Definition MINUS : N := 45.
Definition DOT : N := 46.
Definition SLASH : N := 47.
Definition ZERO : N := 48.
Definition NINE : N := 57.
Definition COLON : N := 58.
Definition LBRACKET : N := 91.
Definition BACKSLASH : N := 92.
Definition RBRACKET : N := 93.
Definition LBRACE : N := 123.
Definition RBRACE : N := 125.

(** *** Lexical level *)

Definition is_ws (c : N) : bool :=
  (c =? TAB) || (c =? LF) || (c =? CR) || (c =? SPACE).

Fixpoint skip_ws (s : jsstring) : jsstring :=
  match s with
  | c :: r => if is_ws c then skip_ws r else s
  | [] => []
  end.

Definition is_digit (c : N) : bool := (ZERO <=? c) && (c <=? NINE).

Fixpoint span_digits (s : jsstring) : jsstring * jsstring :=
  match s with
  | c :: r =>
    if is_digit c
    then let (d, r') := span_digits r in (c :: d, r')
    else ([], s)
  | [] => ([], [])
  end.

Fixpoint strip_prefix (p s : jsstring) : option jsstring :=
  match p, s with
  | [], _ => Some s
  | a :: p', b :: s' => if a =? b then strip_prefix p' s' else None
  | _ :: _, [] => None
  end.

Definition hex_value (c : N) : option N :=
  if (48 <=? c) && (c <=? 57) then Some (c - 48)
  else if (97 <=? c) && (c <=? 102) then Some (c - 87)
  else if (65 <=? c) && (c <=? 70) then Some (c - 55)
  else None.

Definition hex4 (a b c d : N) : option N :=
  match hex_value a, hex_value b, hex_value c, hex_value d with
  | Some x, Some y, Some z, Some w => Some (((x * 16 + y) * 16 + z) * 16 + w)
  | _, _, _, _ => None
  end.

(** The character a one-letter escape stands for. *)
Definition unescape (e : N) : option N :=
  if e =? DQUOTE then Some DQUOTE
  else if e =? BACKSLASH then Some BACKSLASH
  else if e =? SLASH then Some SLASH
  else if e =? 98 then Some BACKSPACE
  else if e =? 102 then Some FF
  else if e =? 110 then Some LF
  else if e =? 114 then Some CR
  else if e =? 116 then Some TAB
  else None.

Definition cons_char (c : N) (k : option (jsstring * jsstring))
  : option (jsstring * jsstring) :=
  match k with
  | Some (str, rest) => Some (c :: str, rest)
  | None => None
  end.

(** The characters of a string literal, after its opening quote, up to and
    including the closing quote. *)
Fixpoint parse_chars (s : jsstring) : option (jsstring * jsstring) :=
  match s with
  | [] => None
  | c :: r =>
    if c =? DQUOTE then Some ([], r)
    else if c =? BACKSLASH then
      match r with
      | [] => None
      | e :: r1 =>
        if e =? 117 then
          match r1 with
          | h1 :: h2 :: h3 :: h4 :: r2 =>
            match hex4 h1 h2 h3 h4 with
            | Some u => cons_char u (parse_chars r2)
            | None => None
            end
          | _ => None
          end
        else
          match unescape e with
          | Some u => cons_char u (parse_chars r1)
          | None => None
          end
      end
    else if c <? SPACE then None
    else cons_char c (parse_chars r)
  end.

(** A lexeme of the number grammar: an optional minus sign; a zero, or a
    digit from 1 to 9 and any digits; optionally a dot and one digit or
    more; optionally [e] or [E], an optional sign, one digit or more. *)
Definition lex_sign (minus_only : bool) (s : jsstring) : jsstring * jsstring :=
  match s with
  | c :: r =>
    if (c =? MINUS) || (negb minus_only && (c =? PLUS)) then ([c], r) else ([], s)
  | [] => ([], [])
  end.

Definition lex_int (s : jsstring) : option (jsstring * jsstring) :=
  match s with
  | c :: r =>
    if c =? ZERO then Some ([c], r)
    else if is_digit c then let (d, r') := span_digits r in Some (c :: d, r')
    else None
  | [] => None
  end.

Definition lex_frac (s : jsstring) : option (jsstring * jsstring) :=
  match s with
  | c :: r =>
    if c =? DOT then
      match span_digits r with
      | ([], _) => None
      | (d, r') => Some (c :: d, r')
      end
    else Some ([], s)
  | [] => Some ([], [])
  end.

Definition lex_exp (s : jsstring) : option (jsstring * jsstring) :=
  match s with
  | c :: r =>
    if (c =? 101) || (c =? 69) then
      let (sg, r1) := lex_sign false r in
      match span_digits r1 with
      | ([], _) => None
      | (d, r2) => Some (c :: sg ++ d, r2)
      end
    else Some ([], s)
  | [] => Some ([], [])
  end.

Definition lex_number (s : jsstring) : option (jsstring * jsstring) :=
  let (sg, s1) := lex_sign true s in
  match lex_int s1 with
  | None => None
  | Some (i, s2) =>
    match lex_frac s2 with
    | None => None
    | Some (f, s3) =>
      match lex_exp s3 with
      | None => None
      | Some (e, s4) => Some (sg ++ i ++ f ++ e, s4)
      end
    end
  end.

(** *** The parser *)

(** A parser returns a value and the text after it, rejects the text, or
    runs out of fuel. *)
Inductive presult (A : Type) : Type :=
| POk (a : A) (rest : jsstring)
| PErr
| PFuel.
Arguments POk {A} a rest.
Arguments PErr {A}.
Arguments PFuel {A}.

(** What a run on [s] with [fuel] may return: text left over that is
    shorter than [s], a rejection, or an exhaustion that the length of [s]
    explains. *)
Definition progress {A : Type} (fuel : nat) (s : jsstring) (res : presult A) : Prop :=
  match res with
  | POk _ rest => (List.length rest < List.length s)%nat
  | PErr => True
  | PFuel => (fuel <= List.length s)%nat
  end.

Section WithNumbers.
Context `{Float64}.

(** [CreateDataProperty]: a key seen again keeps its place and takes the new
    value. *)
Fixpoint define_property (props : list (jsstring * value)) (k : jsstring) (v : value)
  : list (jsstring * value) :=
  match props with
  | [] => [(k, v)]
  | (k', v') :: ps =>
    if jsstring_eqb k' k then (k', v) :: ps else (k', v') :: define_property ps k v
  end.

(** One member [string : value] of an object, the value read by [pv]. *)
Definition parse_member (pv : jsstring -> presult value) (s : jsstring)
  : presult (jsstring * value) :=
  match skip_ws s with
  | c :: r =>
    if c =? DQUOTE then
      match parse_chars r with
      | Some (k, r1) =>
        match skip_ws r1 with
        | c1 :: r2 =>
          if c1 =? COLON then
            match pv r2 with
            | POk v rest => POk (k, v) rest
            | PErr => PErr
            | PFuel => PFuel
            end
          else PErr
        | [] => PErr
        end
      | None => PErr
      end
    else PErr
  | [] => PErr
  end.

Fixpoint parse_value (fuel : nat) (s : jsstring) {struct fuel} : presult value :=
  match fuel with
  | O => PFuel
  | S f =>
    match skip_ws s with
    | [] => PErr
    | c :: r =>
      if c =? DQUOTE then
        match parse_chars r with
        | Some (str, rest) => POk (JStr str) rest
        | None => PErr
        end
      else if c =? LBRACKET then
        match skip_ws r with
        | [] => PErr
        | c' :: r' =>
          if c' =? RBRACKET then POk (JArr []) r'
          else
            match parse_value f r with
            | POk v rest => parse_elements f [v] rest
            | PErr => PErr
            | PFuel => PFuel
            end
        end
      else if c =? LBRACE then
        match skip_ws r with
        | [] => PErr
        | c' :: r' =>
          if c' =? RBRACE then POk (JObj []) r'
          else
            match parse_member (parse_value f) r with
            | POk (k, v) rest => parse_members f [(k, v)] rest
            | PErr => PErr
            | PFuel => PFuel
            end
        end
      else if c =? 116 then
        match strip_prefix (lit "rue") r with
        | Some rest => POk (JBool true) rest
        | None => PErr
        end
      else if c =? 102 then
        match strip_prefix (lit "alse") r with
        | Some rest => POk (JBool false) rest
        | None => PErr
        end
      else if c =? 110 then
        match strip_prefix (lit "ull") r with
        | Some rest => POk JNull rest
        | None => PErr
        end
      else
        match lex_number (c :: r) with
        | Some (lexeme, rest) => POk (JNum (StringToNumber lexeme)) rest
        | None => PErr
        end
    end
  end

with parse_elements (fuel : nat) (acc : list value) (s : jsstring) {struct fuel}
  : presult value :=
  match fuel with
  | O => PFuel
  | S f =>
    match skip_ws s with
    | [] => PErr
    | c :: r =>
      if c =? COMMA then
        match parse_value f r with
        | POk v rest => parse_elements f (acc ++ [v]) rest
        | PErr => PErr
        | PFuel => PFuel
        end
      else if c =? RBRACKET then POk (JArr acc) r
      else PErr
    end
  end

with parse_members (fuel : nat) (acc : list (jsstring * value)) (s : jsstring)
  {struct fuel} : presult value :=
  match fuel with
  | O => PFuel
  | S f =>
    match skip_ws s with
    | [] => PErr
    | c :: r =>
      if c =? COMMA then
        match parse_member (parse_value f) r with
        | POk (k, v) rest => parse_members f (define_property acc k v) rest
        | PErr => PErr
        | PFuel => PFuel
        end
      else if c =? RBRACE then POk (JObj acc) r
      else PErr
    end
  end.

(** [JSON.parse(text)]: one value, white space around it, nothing else.  The
    fuel is one more than the length of the text, which is never used up
    (lemma [parse_value_fuel] below). *)
Definition parse (text : jsstring) : Completion value :=
  match parse_value (S (List.length text)) text with
  | POk v rest =>
    match skip_ws rest with
    | [] => Normal v
    | _ :: _ => Throw SyntaxError
    end
  | PErr => Throw SyntaxError
  | PFuel => Throw SyntaxError
  end.

(** *** [JSON.stringify (value, null, 2)] *)

Definition hex_char (d : N) : N := if d <? 10 then 48 + d else 87 + d.

(** [UnicodeEscape]: a backslash, [u] and four lower-case hexadecimal
    digits. *)
Definition unicode_escape (c : N) : jsstring :=
  [BACKSLASH; 117;
   hex_char ((c / 4096) mod 16); hex_char ((c / 256) mod 16);
   hex_char ((c / 16) mod 16); hex_char (c mod 16)].

(** The code units with a one-letter escape. *)
Definition escape_letter (c : N) : option N :=
  if c =? BACKSPACE then Some 98
  else if c =? TAB then Some 116
  else if c =? LF then Some 110
  else if c =? FF then Some 102
  else if c =? CR then Some 114
  else if c =? DQUOTE then Some DQUOTE
  else if c =? BACKSLASH then Some BACKSLASH
  else None.

(** The body of [QuoteJSONString], code point by code point: a one-letter
    escape where there is one, a [UnicodeEscape] for the other control
    characters and for a surrogate without its partner, the code point
    itself otherwise. *)
Fixpoint quote_chars (s : jsstring) : jsstring :=
  match s with
  | [] => []
  | c :: r =>
    match escape_letter c with
    | Some e => BACKSLASH :: e :: quote_chars r
    | None =>
      if c <? SPACE then unicode_escape c ++ quote_chars r
      else if JSSet.is_high_surrogate c then
        match r with
        | d :: r' =>
          if JSSet.is_low_surrogate d then c :: d :: quote_chars r'
          else unicode_escape c ++ quote_chars r
        | [] => unicode_escape c
        end
      else if JSSet.is_low_surrogate c then unicode_escape c ++ quote_chars r
      else c :: quote_chars r
    end
  end.

Definition quote (s : jsstring) : jsstring := DQUOTE :: quote_chars s ++ [DQUOTE].

(** The gap of [JSON.stringify (_, null, 2)]: two spaces. *)
Definition gap : jsstring := [SPACE; SPACE].

Fixpoint join (sep : jsstring) (parts : list jsstring) : jsstring :=
  match parts with
  | [] => []
  | [p] => p
  | p :: ps => p ++ sep ++ join sep ps
  end.

(** A property key that is an array index: a canonical decimal numeral
    below [2^32 - 1]. *)
Definition array_index (k : jsstring) : option N :=
  match k with
  | [] => None
  | c :: r =>
    if forallb is_digit k && (negb (c =? ZERO) || match r with [] => true | _ => false end)
    then
      let n := fold_left (fun a d => 10 * a + (d - ZERO)) k 0 in
      if n <=? 4294967294 then Some n else None
    else None
  end.

Fixpoint insert_by_index {A : Type} (i : N) (x : A) (l : list (N * A)) : list (N * A) :=
  match l with
  | [] => [(i, x)]
  | (j, y) :: l' =>
    if i <=? j then (i, x) :: l else (j, y) :: insert_by_index i x l'
  end.

(** The own properties of an object in the order [JSON.stringify] visits
    them: array indices in ascending order, then the other keys in creation
    order. *)
Definition own_properties {A : Type} (props : list (jsstring * A)) : list (jsstring * A) :=
  let indexed :=
    fold_right
      (fun p acc =>
         match array_index (fst p) with
         | Some i => insert_by_index i p acc
         | None => acc
         end) [] props in
  map snd indexed ++
  filter (fun p => match array_index (fst p) with Some _ => false | None => true end) props.

(** [SerializeJSONProperty] with the current indentation. *)
Fixpoint serialize (indent : jsstring) (v : value) {struct v} : jsstring :=
  match v with
  | JNull => lit "null"
  | JBool true => lit "true"
  | JBool false => lit "false"
  | JNum n => Number_toJSON n
  | JStr s => quote s
  | JArr elems =>
    let stepback := indent in
    let indent := indent ++ gap in
    match elems with
    | [] => [LBRACKET; RBRACKET]
    | _ :: _ =>
      [LBRACKET] ++ [LF] ++ indent
      ++ join ([COMMA; LF] ++ indent) (map (serialize indent) elems)
      ++ [LF] ++ stepback ++ [RBRACKET]
    end
  | JObj props =>
    let stepback := indent in
    let indent := indent ++ gap in
    match props with
    | [] => [LBRACE; RBRACE]
    | _ :: _ =>
      [LBRACE] ++ [LF] ++ indent
      ++ join ([COMMA; LF] ++ indent)
           (map (fun p => quote (fst p) ++ [COLON; SPACE] ++ snd p)
                (own_properties (map (fun p => (fst p, serialize indent (snd p))) props)))
      ++ [LF] ++ stepback ++ [RBRACE]
    end
  end.

Definition stringify (v : value) : jsstring := serialize [] v.

End WithNumbers.
End JSON.

(** ** Buffers and the UTF-8 codec

    [fs.readFileSync] returns a [Buffer]; [JSON.parse] converts it with
    [toString], which decodes UTF-8.  [fs.writeFileSync] with a string
    writes its UTF-8 encoding. *)

Module Buffer.

Local Open Scope N_scope.

(** A buffer is a sequence of bytes. *)
Definition t := list N.

(** The decoder is the WHATWG one: an ill-formed sequence becomes U+FFFD and
    decoding resumes at the byte that broke it. *)
Record decoder : Type := {
  code_point : N;
  bytes_needed : N;
  lower_boundary : N;
  upper_boundary : N
}.

Definition idle : decoder :=
  {| code_point := 0; bytes_needed := 0; lower_boundary := 128; upper_boundary := 191 |}.

Definition REPLACEMENT : N := 65533.

(** The UTF-16 code units of a code point. *)
Definition utf16 (cp : N) : jsstring :=
  if cp <? 65536 then [cp]
  else [55296 + (cp - 65536) / 1024; 56320 + (cp - 65536) mod 1024].

(** A byte met when no sequence is open. *)
Definition lead (b : N) : jsstring * decoder :=
  if b <=? 127 then ([b], idle)
  else if (194 <=? b) && (b <=? 223) then
    ([], {| code_point := b - 192; bytes_needed := 1;
            lower_boundary := 128; upper_boundary := 191 |})
  else if (224 <=? b) && (b <=? 239) then
    ([], {| code_point := b - 224; bytes_needed := 2;
            lower_boundary := if b =? 224 then 160 else 128;
            upper_boundary := if b =? 237 then 159 else 191 |})
  else if (240 <=? b) && (b <=? 244) then
    ([], {| code_point := b - 240; bytes_needed := 3;
            lower_boundary := if b =? 240 then 144 else 128;
            upper_boundary := if b =? 244 then 143 else 191 |})
  else ([REPLACEMENT], idle).

Definition step (d : decoder) (b : N) : jsstring * decoder :=
  if bytes_needed d =? 0 then lead b
  else if (lower_boundary d <=? b) && (b <=? upper_boundary d) then
    let cp := code_point d * 64 + (b - 128) in
    if bytes_needed d =? 1 then (utf16 cp, idle)
    else ([], {| code_point := cp; bytes_needed := bytes_needed d - 1;
                 lower_boundary := 128; upper_boundary := 191 |})
  else
    let (out, d') := lead b in (REPLACEMENT :: out, d').

Fixpoint decode (d : decoder) (bytes : t) : jsstring :=
  match bytes with
  | [] => if bytes_needed d =? 0 then [] else [REPLACEMENT]
  | b :: r => let (out, d') := step d b in out ++ decode d' r
  end.

(** [buffer.toString()] *)
Definition toString (bytes : t) : jsstring := decode idle bytes.

(** The UTF-8 bytes of a code point. *)
Definition utf8 (cp : N) : t :=
  if cp <? 128 then [cp]
  else if cp <? 2048 then [192 + cp / 64; 128 + cp mod 64]
  else if cp <? 65536 then
    [224 + cp / 4096; 128 + (cp / 64) mod 64; 128 + cp mod 64]
  else
    [240 + cp / 262144; 128 + (cp / 4096) mod 64;
     128 + (cp / 64) mod 64; 128 + cp mod 64].

(** [Buffer.from(string, 'utf8')]: a surrogate pair is one code point, a
    surrogate without its partner is written as U+FFFD. *)
Fixpoint from (s : jsstring) : t :=
  match s with
  | [] => []
  | c :: r =>
    if JSSet.is_high_surrogate c then
      match r with
      | d :: r' =>
        if JSSet.is_low_surrogate d
        then utf8 (65536 + (c - 55296) * 1024 + (d - 56320)) ++ from r'
        else utf8 REPLACEMENT ++ from r
      | [] => utf8 REPLACEMENT
      end
    else if JSSet.is_low_surrogate c then utf8 REPLACEMENT ++ from r
    else utf8 c ++ from r
  end.

(** A code point that is not a surrogate. *)
Definition scalar (cp : N) : Prop := cp < 55296 \/ (57343 < cp /\ cp < 1114112).

(** UTF-16 without a lone surrogate. *)
Inductive well_formed : jsstring -> Prop :=
| wf_nil : well_formed []
| wf_unit (c : N) (s : jsstring) :
    c < 65536 ->
    JSSet.is_high_surrogate c = false -> JSSet.is_low_surrogate c = false ->
    well_formed s -> well_formed (c :: s)
| wf_pair (c d : N) (s : jsstring) :
    JSSet.is_high_surrogate c = true -> JSSet.is_low_surrogate d = true ->
    well_formed s -> well_formed (c :: d :: s).

End Buffer.

(** ** The plugin *)

(** The contents of a vinyl file: [null] for a directory or an unread file,
    a buffer, or a stream.  No function of the module reads a stream, so its
    data is left out. *)
Inductive Contents : Type :=
| NoContents
| BufferContents (bytes : Buffer.t)
| StreamContents.

(** A vinyl file as [gulp.src] hands it over. *)
Record File : Type := {
  path : string;
  contents : Contents
}.

(** [file.isNull()]: [this.contents === null]. *)
Definition isNull (file : File) : bool :=
  match contents file with
  | NoContents => true
  | BufferContents _ | StreamContents => false
  end.

Definition Encoding := string.

Section Labelizer.
Context `{Float64}.

(** [hasha(buffer)]: the hexadecimal digest of the bytes. *)
Variable hasha : Buffer.t -> jsstring.

(** What the functions of the module read and write: the module-level
    [labeledSet] and the file at [recordPath], that is [labeled.json] next to
    the module ([None] when it does not exist; when it exists it is a regular
    file that can be read and written). *)
Record World : Type := {
  labeledSet : JSSet.t;
  recordFile : option Buffer.t
}.

(** Statements run in a state monad whose result is a completion. *)
Definition M (A : Type) : Type := World -> Completion A * World.

Definition ret {A : Type} (a : A) : M A := fun w => (Normal a, w).

Definition throw {A : Type} (e : JSError) : M A := fun w => (Throw e, w).

Definition bind {A B : Type} (m : M A) (k : A -> M B) : M B :=
  fun w =>
    match m w with
    | (Normal a, w') => k a w'
    | (Throw e, w') => (Throw e, w')
    end.

Notation "x <- m ;; k" := (bind m (fun x => k))
  (at level 61, m at next level, right associativity).
Notation "m ;;; k" := (bind m (fun _ => k))
  (at level 61, right associativity).

Definition read_labeledSet : M JSSet.t := fun w => (Normal (labeledSet w), w).

Definition write_labeledSet (s : JSSet.t) : M unit :=
  fun w => (Normal tt, {| labeledSet := s; recordFile := recordFile w |}).

(** [fs.writeFileSync(recordPath, data)] *)
Definition writeFileSync (data : jsstring) : M unit :=
  fun w => (Normal tt, {| labeledSet := labeledSet w;
                          recordFile := Some (Buffer.from data) |}).

(** The completion callback of a transform: [next()] is [next None None],
    [next(null, file)] is [next None (Some file)]. *)
Definition Callback (R : Type) : Type := option JSError -> option File -> M R.

Definition Transformer : Type :=
  forall R : Type, File -> Encoding -> Callback R -> M R.

(** [through.obj(options, transformer)] *)
Record ThroughStream : Type := {
  maxConcurrency : nat;
  transform : Transformer
}.

Definition createThroughStream (transformer : Transformer) : ThroughStream :=
  {| maxConcurrency := 8; transform := transformer |}.

(** [_getLabeledFiles], run against the record file:
    [fs.existsSync(recordPath) ? JSON.parse(fs.readFileSync(recordPath)) : []].
    [JSON.parse] turns the buffer into a string first. *)
Definition _getLabeledFiles (disk : option Buffer.t) : Completion value :=
  match disk with
  | Some bytes => JSON.parse (Buffer.toString bytes)
  | None => Normal (JArr [])
  end.

(** [let labeledSet = new Set(_getLabeledFiles())], evaluated once when the
    module is required: the world the stages start in, or the exception that
    [require] throws. *)
Definition load (disk : option Buffer.t) : Completion World :=
  match _getLabeledFiles disk with
  | Normal v =>
    match JSSet.construct v with
    | Normal s => Normal {| labeledSet := s; recordFile := disk |}
    | Throw e => Throw e
    end
  | Throw e => Throw e
  end.

(** [hasha(file.contents)]: the digest of a buffer.  Anything else reaches
    [hash.update] of [crypto], which refuses it with a [TypeError]. *)
Definition hasha_contents (c : Contents) : M jsstring :=
  match c with
  | BufferContents buf => ret (hasha buf)
  | NoContents | StreamContents => throw TypeError
  end.

Definition _filterNotLabled : Transformer := fun R file encoding next =>
  if isNull file then next None (Some file)
  else
    h <- hasha_contents (contents file) ;;
    s <- read_labeledSet ;;
    let hasExisted := JSSet.has s (JStr h) in
    if hasExisted then next None None else next None (Some file).

Definition _labelFile : Transformer := fun R file encoding next =>
  if isNull file then next None (Some file)
  else
    h <- hasha_contents (contents file) ;;
    s <- read_labeledSet ;;
    write_labeledSet (JSSet.add s (JStr h)) ;;;
    next None (Some file).

(** The last statement is [return cb(null, file)].  The function binds
    [file], [encoding], [next] and [jsonStr]; the module binds [fs], [path],
    [hasha], [through], [record], [recordPath], [labeledSet], its five
    functions and [Labelizer]; Node adds [exports], [require], [module],
    [__filename] and [__dirname], and has no global of that name.  So
    evaluating the identifier [cb] throws before anything is called. *)
Definition _dumpToRecordJSON : Transformer := fun R file encoding next =>
  if isNull file then next None (Some file)
  else
    s <- read_labeledSet ;;
    let jsonStr := JSON.stringify (JArr (JSSet.spread s)) in
    writeFileSync jsonStr ;;;
    throw (ReferenceError "cb").

Record Exports : Type := {
  notLabled : unit -> ThroughStream;
  label : unit -> ThroughStream;
  dump : unit -> ThroughStream
}.

Definition Labelizer : Exports :=
  {| notLabled := fun _ => createThroughStream _filterNotLabled;
     label := fun _ => createThroughStream _labelFile;
     dump := fun _ => createThroughStream _dumpToRecordJSON |}.

(** *** Running a stream

    The three transformers complete before they return, so a stream handles
    its chunks one after the other, in order.  The callback the stream hands
    to its transformer pushes the file it is given, pushes nothing when it is
    given none, and fails the stream when it is given an error. *)
Definition done : Callback (option File) := fun err data =>
  match err with
  | Some e => throw e
  | None => ret data
  end.

Definition write (s : ThroughStream) (chunk : File) : M (option File) :=
  transform s chunk "utf8"%string done.

(** The files a stream pushed downstream for the chunks written to it, and
    the error that stopped it, if one did. *)
Fixpoint pipe (s : ThroughStream) (chunks : list File) (w : World)
  : (list File * option JSError) * World :=
  match chunks with
  | [] => (([], None), w)
  | c :: cs =>
    match write s c w with
    | (Normal out, w') =>
      let '((outs, err), w'') := pipe s cs w' in
      ((match out with Some f => f :: outs | None => outs end, err), w'')
    | (Throw e, w') => (([], Some e), w')
    end
  end.

End Labelizer.

(** ** Inputs for the examples *)

Module Sample.

Local Open Scope N_scope.

(** Numbers kept as the lexeme they were read from.  The examples run on
    record files that hold no number, where this choice is not observed. *)
#[export] Instance lexical : Float64 := {|
  Number := jsstring;
  StringToNumber := fun lexeme => lexeme;
  Number_sameValueZero := jsstring_eqb;
  Number_toJSON := fun lexeme => lexeme
|}.

(** A stand-in for the digest: the byte sum modulo 256 as two hexadecimal
    digits. *)
Definition checksum (buf : Buffer.t) : jsstring :=
  let n := fold_left N.add buf 0 mod 256 in
  [JSON.hex_char (n / 16); JSON.hex_char (n mod 16)].

Definition fileA : File := {| path := "a.txt"; contents := BufferContents (lit "hello") |}.
Definition fileB : File := {| path := "b.txt"; contents := BufferContents (lit "world!") |}.
Definition directory : File := {| path := "lib"; contents := NoContents |}.

(** A world where [fileA] is labeled and [fileB] is not. *)
Definition labeledA : World :=
  {| labeledSet := [JStr (checksum (lit "hello"))]; recordFile := None |}.

End Sample.

Module MoreSamples.

(** The contents of [Sample.fileB] under another path. *)
Definition copyB : File := {| path := "copy.txt"; contents := BufferContents (lit "world!") |}.

(** A file read as a stream. *)
Definition streamed : File := {| path := "big.bin"; contents := StreamContents |}.

End MoreSamples.

(** * Properties *)

(** ** The [Set] *)

Section SetFacts.
Context `{Float64}.

Lemma jsstring_eqb_refl (a : jsstring) : jsstring_eqb a a = true.
Proof.
  unfold jsstring_eqb. destruct (list_eq_dec N.eq_dec a a); congruence.
Qed.

Lemma jsstring_eqb_eq (a b : jsstring) : jsstring_eqb a b = true <-> a = b.
Proof.
  unfold jsstring_eqb. destruct (list_eq_dec N.eq_dec a b); split; congruence.
Qed.

Lemma sameValueZero_JStr (a b : jsstring) :
  JSSet.sameValueZero (JStr a) (JStr b) = true <-> a = b.
Proof. simpl. apply jsstring_eqb_eq. Qed.

Lemma has_app (s1 s2 : JSSet.t) (v : value) :
  JSSet.has (s1 ++ s2) v = JSSet.has s1 v || JSSet.has s2 v.
Proof. unfold JSSet.has. apply existsb_app. Qed.

Lemma has_JStr (s : JSSet.t) (h : jsstring) :
  JSSet.has s (JStr h) = true <-> In (JStr h) s.
Proof.
  unfold JSSet.has. rewrite existsb_exists. split.
  - intros [x [Hin Hx]]. destruct x; simpl in Hx; try discriminate.
    apply jsstring_eqb_eq in Hx. now subst.
  - intros Hin. exists (JStr h). split; [assumption|].
    simpl. apply jsstring_eqb_refl.
Qed.

Lemma has_add_JStr (s : JSSet.t) (h : jsstring) :
  JSSet.has (JSSet.add s (JStr h)) (JStr h) = true.
Proof.
  unfold JSSet.add. destruct (JSSet.has s (JStr h)) eqn:E; [assumption|].
  rewrite has_app, E. simpl. now rewrite jsstring_eqb_refl.
Qed.

Lemma add_present (s : JSSet.t) (v : value) :
  JSSet.has s v = true -> JSSet.add s v = s.
Proof. intros E. unfold JSSet.add. now rewrite E. Qed.

Lemma add_all_app (s : JSSet.t) (l1 l2 : list value) :
  JSSet.add_all s (l1 ++ l2) = JSSet.add_all (JSSet.add_all s l1) l2.
Proof. unfold JSSet.add_all. apply fold_left_app. Qed.

(** Adding strings that are new and pairwise distinct appends them. *)
Lemma add_all_fresh (hs : list jsstring) (s : JSSet.t) :
  NoDup hs ->
  (forall h, In h hs -> ~ In (JStr h) s) ->
  JSSet.add_all s (map JStr hs) = s ++ map JStr hs.
Proof.
  revert s. induction hs as [|h hs IH]; intros s Hnd Hfresh.
  - simpl. now rewrite app_nil_r.
  - inversion Hnd as [|? ? Hnotin Hnd']; subst.
    assert (E : JSSet.has s (JStr h) = false).
    { destruct (JSSet.has s (JStr h)) eqn:E; [|reflexivity].
      apply has_JStr in E. exfalso. apply (Hfresh h); [now left|assumption]. }
    change (JSSet.add_all (JSSet.add s (JStr h)) (map JStr hs)
            = s ++ JStr h :: map JStr hs).
    unfold JSSet.add. rewrite E. rewrite IH; [|assumption|].
    + now rewrite <- app_assoc.
    + intros h' Hin Hin'. apply in_app_or in Hin'. destruct Hin' as [Hin'|Hin'].
      * apply (Hfresh h'); [now right|assumption].
      * simpl in Hin'. destruct Hin' as [Heq|[]]. injection Heq as ->. contradiction.
Qed.

(** A set of pairwise distinct strings stays one when a string is added. *)
Lemma add_keeps_strings (hs : list jsstring) (h : jsstring) :
  NoDup hs ->
  exists hs' : list jsstring,
    JSSet.add (map JStr hs) (JStr h) = map JStr hs' /\ NoDup hs' /\
    (forall x, In x hs' <-> x = h \/ In x hs).
Proof.
  intros Hnd. unfold JSSet.add.
  destruct (JSSet.has (map JStr hs) (JStr h)) eqn:E.
  - exists hs. repeat split; auto.
    intros [->|Hx]; [|assumption].
    apply has_JStr, in_map_iff in E. destruct E as [y [Hy Hin]].
    injection Hy as ->. assumption.
  - exists (hs ++ [h]). rewrite map_app. repeat split.
    + apply NoDup_app; [assumption|repeat constructor; intros []|].
      intros x Hin [Hx|[]]. subst x.
      assert (F : JSSet.has (map JStr hs) (JStr h) = true)
        by (apply has_JStr, in_map_iff; eauto).
      congruence.
    + intros Hin. apply in_app_or in Hin. simpl in Hin.
      destruct Hin as [Hin|[<-|[]]]; auto.
    + intros [->|Hin]; apply in_or_app; simpl; auto.
Qed.

Lemma add_all_keeps_strings (l hs : list jsstring) :
  NoDup hs ->
  exists hs' : list jsstring,
    JSSet.add_all (map JStr hs) (map JStr l) = map JStr hs' /\ NoDup hs'.
Proof.
  revert hs. induction l as [|h l IH]; intros hs Hnd.
  - exists hs. split; [reflexivity|assumption].
  - destruct (add_keeps_strings h Hnd) as [hs1 [E1 [Hnd1 _]]].
    destruct (IH hs1 Hnd1) as [hs2 [E2 Hnd2]].
    exists hs2. split; [|assumption].
    change (JSSet.add_all (JSSet.add (map JStr hs) (JStr h)) (map JStr l)
            = map JStr hs2).
    now rewrite E1.
Qed.

End SetFacts.

(** ** The parser and the printer *)

Section ParserFacts.
Context `{Float64}.
Import JSON.

Ltac case_match :=
  match goal with
  | Hm : context [match ?x with _ => _ end] |- _ =>
    let E := fresh "E" in destruct x eqn:E
  end.

Lemma skip_ws_length (s : jsstring) : List.length (skip_ws s) <= List.length s.
Proof.
  induction s as [|c r IH]; simpl; [lia|].
  destruct (is_ws c); simpl; lia.
Qed.

Lemma skip_ws_cons (s r : jsstring) (c : N) :
  skip_ws s = c :: r -> List.length r < List.length s.
Proof.
  intros E. pose proof (skip_ws_length s) as L. rewrite E in L. simpl in L. lia.
Qed.

Lemma cons_char_some (c : N) k str rest :
  cons_char c k = Some (str, rest) ->
  exists str', k = Some (str', rest) /\ str = c :: str'.
Proof.
  destruct k as [[s' r']|]; simpl; intros E; [|discriminate].
  injection E as <- <-. eauto.
Qed.

Lemma parse_chars_length_aux (n : nat) :
  forall s str rest,
    List.length s <= n -> parse_chars s = Some (str, rest) ->
    List.length rest < List.length s.
Proof.
  induction n as [|n IH]; intros s str rest Hn E.
  - destruct s; [discriminate|simpl in Hn; lia].
  - destruct s as [|c r]; [discriminate|]. simpl in Hn.
    cbn [parse_chars] in E.
    repeat case_match; try discriminate;
      try (injection E as <- <-; simpl; lia);
      apply cons_char_some in E; destruct E as [str' [E _]];
      apply IH in E; simpl in *; lia.
Qed.

Lemma parse_chars_length (s str rest : jsstring) :
  parse_chars s = Some (str, rest) -> List.length rest < List.length s.
Proof. apply parse_chars_length_aux with (n := List.length s). lia. Qed.

Lemma span_digits_length (s d r : jsstring) :
  span_digits s = (d, r) -> List.length r <= List.length s.
Proof.
  revert d r. induction s as [|c s IH]; simpl; intros d r E.
  - injection E as <- <-. simpl. lia.
  - destruct (is_digit c).
    + destruct (span_digits s) as [d' r'] eqn:E'. injection E as <- <-.
      specialize (IH _ _ eq_refl). lia.
    + injection E as <- <-. simpl. lia.
Qed.

Lemma strip_prefix_length (p s r : jsstring) :
  strip_prefix p s = Some r -> List.length r <= List.length s.
Proof.
  revert s. induction p as [|a p IH]; intros s E; simpl in E.
  - injection E as <-. lia.
  - destruct s as [|b s]; [discriminate|].
    destruct (N.eqb a b); [|discriminate]. apply IH in E. simpl. lia.
Qed.

Lemma lex_sign_length b (s l r : jsstring) :
  lex_sign b s = (l, r) -> List.length r <= List.length s.
Proof.
  unfold lex_sign. intros E. repeat case_match; injection E as <- <-; simpl; lia.
Qed.

Ltac lengths :=
  repeat match goal with
         | Hs : span_digits _ = (_, _) |- _ => apply span_digits_length in Hs
         | Hs : lex_sign _ _ = (_, _) |- _ => apply lex_sign_length in Hs
         end.

Lemma lex_int_length (s l r : jsstring) :
  lex_int s = Some (l, r) -> List.length r < List.length s.
Proof.
  unfold lex_int. intros E. repeat case_match; try discriminate.
  - injection E as <- <-. simpl. lia.
  - injection E as <- <-. lengths. simpl. lia.
Qed.

Lemma lex_frac_length (s l r : jsstring) :
  lex_frac s = Some (l, r) -> List.length r <= List.length s.
Proof.
  unfold lex_frac. intros E. repeat case_match; try discriminate;
    injection E as <- <-; lengths; simpl; lia.
Qed.

Lemma lex_exp_length (s l r : jsstring) :
  lex_exp s = Some (l, r) -> List.length r <= List.length s.
Proof.
  unfold lex_exp. intros E. repeat case_match; try discriminate;
    injection E as <- <-; lengths; simpl; lia.
Qed.

Lemma lex_number_length (s l r : jsstring) :
  lex_number s = Some (l, r) -> List.length r < List.length s.
Proof.
  unfold lex_number. intros E.
  destruct (lex_sign true s) as [sg s1] eqn:E1.
  destruct (lex_int s1) as [[i s2]|] eqn:E2; [|discriminate].
  destruct (lex_frac s2) as [[f s3]|] eqn:E3; [|discriminate].
  destruct (lex_exp s3) as [[e s4]|] eqn:E4; [|discriminate].
  injection E as <- <-.
  apply lex_sign_length in E1. apply lex_int_length in E2.
  apply lex_frac_length in E3. apply lex_exp_length in E4. lia.
Qed.

Lemma parse_member_progress (f : nat) (pv : jsstring -> presult value) :
  (forall s, progress f s (pv s)) ->
  forall s, progress f s (parse_member pv s).
Proof.
  intros Hpv s. unfold parse_member.
  destruct (skip_ws s) as [|c r] eqn:E; [exact I|].
  apply skip_ws_cons in E.
  destruct (N.eqb c DQUOTE); [|exact I].
  destruct (parse_chars r) as [[k r1]|] eqn:E1; [|exact I].
  apply parse_chars_length in E1.
  destruct (skip_ws r1) as [|c1 r2] eqn:E2; [exact I|].
  apply skip_ws_cons in E2.
  destruct (N.eqb c1 COLON); [|exact I].
  specialize (Hpv r2). destruct (pv r2); simpl in *; lia.
Qed.

Lemma parser_progress (f : nat) :
  (forall s, progress f s (parse_value f s)) /\
  (forall acc s, progress f s (parse_elements f acc s)) /\
  (forall acc s, progress f s (parse_members f acc s)).
Proof.
  induction f as [|f [IHv [IHe IHm]]].
  - repeat split; intros; simpl; lia.
  - assert (Hmem := @parse_member_progress f _ IHv).
    repeat split.
    + intros s. cbn [parse_value].
      destruct (skip_ws s) as [|c r] eqn:E; [exact I|].
      pose proof (skip_ws_cons _ E) as L.
      destruct (N.eqb c DQUOTE).
      { destruct (parse_chars r) as [[str rest]|] eqn:E1; [|exact I].
        apply parse_chars_length in E1. simpl. lia. }
      destruct (N.eqb c LBRACKET).
      { destruct (skip_ws r) as [|c' r'] eqn:E1; [exact I|].
        apply skip_ws_cons in E1.
        destruct (N.eqb c' RBRACKET); [simpl; lia|].
        specialize (IHv r). destruct (parse_value f r) as [v rest| |]; simpl in *; try lia.
        specialize (IHe [v] rest).
        destruct (parse_elements f [v] rest); simpl in *; lia. }
      destruct (N.eqb c LBRACE).
      { destruct (skip_ws r) as [|c' r'] eqn:E1; [exact I|].
        apply skip_ws_cons in E1.
        destruct (N.eqb c' RBRACE); [simpl; lia|].
        specialize (Hmem r).
        destruct (parse_member (parse_value f) r) as [[k v] rest| |]; simpl in *; try lia.
        specialize (IHm [(k, v)] rest).
        destruct (parse_members f [(k, v)] rest); simpl in *; lia. }
      destruct (N.eqb c 116).
      { destruct (strip_prefix (lit "rue") r) eqn:E1; [|exact I].
        apply strip_prefix_length in E1. simpl. lia. }
      destruct (N.eqb c 102).
      { destruct (strip_prefix (lit "alse") r) eqn:E1; [|exact I].
        apply strip_prefix_length in E1. simpl. lia. }
      destruct (N.eqb c 110).
      { destruct (strip_prefix (lit "ull") r) eqn:E1; [|exact I].
        apply strip_prefix_length in E1. simpl. lia. }
      destruct (lex_number (c :: r)) as [[lexeme rest]|] eqn:E1; [|exact I].
      apply lex_number_length in E1. simpl in *. lia.
    + intros acc s. cbn [parse_elements].
      destruct (skip_ws s) as [|c r] eqn:E; [exact I|].
      pose proof (skip_ws_cons _ E) as L.
      destruct (N.eqb c COMMA).
      { specialize (IHv r). destruct (parse_value f r) as [v rest| |]; simpl in *; try lia.
        specialize (IHe (acc ++ [v]) rest).
        destruct (parse_elements f (acc ++ [v]) rest); simpl in *; lia. }
      destruct (N.eqb c RBRACKET); simpl; [lia|exact I].
    + intros acc s. cbn [parse_members].
      destruct (skip_ws s) as [|c r] eqn:E; [exact I|].
      pose proof (skip_ws_cons _ E) as L.
      destruct (N.eqb c COMMA).
      { specialize (Hmem r).
        destruct (parse_member (parse_value f) r) as [[k v] rest| |]; simpl in *; try lia.
        specialize (IHm (define_property acc k v) rest).
        destruct (parse_members f (define_property acc k v) rest); simpl in *; lia. }
      destruct (N.eqb c RBRACE); simpl; [lia|exact I].
Qed.

(** The fuel [JSON.parse] starts with is never used up. *)
Lemma parse_value_fuel (text : jsstring) :
  parse_value (S (List.length text)) text <> PFuel.
Proof.
  intros E. pose proof (proj1 (parser_progress (S (List.length text))) text) as P.
  rewrite E in P. simpl in P. lia.
Qed.

Lemma parse_throws_SyntaxError (text : jsstring) (e : JSError) :
  parse text = Throw e -> e = SyntaxError.
Proof.
  unfold parse. intros E.
  destruct (parse_value (S (List.length text)) text) as [v rest| |];
    try destruct (skip_ws rest); congruence.
Qed.

(** *** Reading back a quoted string *)

Local Open Scope N_scope.

Lemma hex_value_hex_char (d : N) : d < 16 -> hex_value (hex_char d) = Some d.
Proof.
  intros Hd. unfold hex_char, hex_value.
  destruct (N.ltb_spec d 10).
  - replace ((48 <=? 48 + d) && (48 + d <=? 57)) with true
      by (symmetry; apply andb_true_iff; split; apply N.leb_le; lia).
    f_equal. lia.
  - replace ((48 <=? 87 + d) && (87 + d <=? 57)) with false
      by (symmetry; apply andb_false_iff; right; apply N.leb_gt; lia).
    replace ((97 <=? 87 + d) && (87 + d <=? 102)) with true
      by (symmetry; apply andb_true_iff; split; apply N.leb_le; lia).
    f_equal. lia.
Qed.

Lemma hex4_digits (c : N) :
  c < 65536 ->
  hex4 (hex_char ((c / 4096) mod 16)) (hex_char ((c / 256) mod 16))
       (hex_char ((c / 16) mod 16)) (hex_char (c mod 16)) = Some c.
Proof.
  intros Hc. unfold hex4.
  rewrite !hex_value_hex_char by (apply N.mod_lt; lia).
  f_equal. zify. Z.to_euclidean_division_equations. lia.
Qed.

Lemma parse_chars_escape (c e : N) (rest : jsstring) :
  escape_letter c = Some e ->
  parse_chars (BACKSLASH :: e :: rest) = cons_char c (parse_chars rest).
Proof.
  unfold escape_letter. intros E.
  repeat match type of E with
         | context [N.eqb ?a ?b] =>
           destruct (N.eqb_spec a b);
             [injection E as <-; subst c; reflexivity|]
         end.
  discriminate.
Qed.

Lemma escape_letter_none (c : N) :
  escape_letter c = None -> (c =? DQUOTE) = false /\ (c =? BACKSLASH) = false.
Proof.
  unfold escape_letter. intros E.
  repeat match type of E with
         | context [N.eqb ?a ?b] => destruct (N.eqb a b); [discriminate|]
         end.
  split; reflexivity.
Qed.

Lemma parse_chars_hex (h1 h2 h3 h4 : N) (rest : jsstring) :
  parse_chars (BACKSLASH :: 117 :: h1 :: h2 :: h3 :: h4 :: rest) =
  match hex4 h1 h2 h3 h4 with
  | Some u => cons_char u (parse_chars rest)
  | None => None
  end.
Proof. reflexivity. Qed.

Lemma parse_chars_unicode_escape (c : N) (rest : jsstring) :
  c < 65536 ->
  parse_chars (unicode_escape c ++ rest) = cons_char c (parse_chars rest).
Proof.
  intros Hc. unfold unicode_escape.
  change (parse_chars
            (BACKSLASH :: 117 :: hex_char ((c / 4096) mod 16)
               :: hex_char ((c / 256) mod 16) :: hex_char ((c / 16) mod 16)
               :: hex_char (c mod 16) :: rest)
          = cons_char c (parse_chars rest)).
  rewrite parse_chars_hex, hex4_digits by assumption. reflexivity.
Qed.

Lemma parse_chars_plain (c : N) (rest : jsstring) :
  (c =? DQUOTE) = false -> (c =? BACKSLASH) = false -> (c <? SPACE) = false ->
  parse_chars (c :: rest) = cons_char c (parse_chars rest).
Proof. intros E1 E2 E3. cbn [parse_chars]. now rewrite E1, E2, E3. Qed.

Lemma surrogate_plain (c : N) :
  JSSet.is_high_surrogate c || JSSet.is_low_surrogate c = true ->
  (c =? DQUOTE) = false /\ (c =? BACKSLASH) = false /\ (c <? SPACE) = false.
Proof.
  unfold JSSet.is_high_surrogate, JSSet.is_low_surrogate, DQUOTE, BACKSLASH, SPACE.
  intros E. apply orb_true_iff in E.
  rewrite !andb_true_iff, !N.leb_le in E.
  rewrite !N.eqb_neq, N.ltb_ge. lia.
Qed.

Lemma parse_quote_chars_aux (n : nat) :
  forall (s rest : jsstring),
    (List.length s <= n)%nat ->
    Forall (fun c => c < 65536) s ->
    parse_chars (quote_chars s ++ DQUOTE :: rest) = Some (s, rest).
Proof.
  induction n as [|n IH]; intros s rest Hn Hs.
  - destruct s; [reflexivity|simpl in Hn; lia].
  - destruct s as [|c r]; [reflexivity|].
    simpl in Hn. inversion Hs as [|? ? Hc Hr]; subst.
    assert (IHr : parse_chars (quote_chars r ++ DQUOTE :: rest) = Some (r, rest))
      by (apply IH; [lia|assumption]).
    cbn [quote_chars].
    destruct (escape_letter c) as [e|] eqn:Ee.
    { cbn [app]. rewrite (@parse_chars_escape c e _ Ee), IHr. reflexivity. }
    destruct (@escape_letter_none c Ee) as [Eq Eb].
    destruct (c <? SPACE) eqn:Ec.
    { rewrite <- app_assoc, parse_chars_unicode_escape, IHr by assumption. reflexivity. }
    destruct (JSSet.is_high_surrogate c) eqn:Eh.
    { destruct r as [|d r'].
      - rewrite parse_chars_unicode_escape by assumption. reflexivity.
      - destruct (JSSet.is_low_surrogate d) eqn:El.
        + cbn [app]. rewrite (@parse_chars_plain c _ Eq Eb Ec).
          destruct (@surrogate_plain d) as [Dq [Db Dc]]; [now rewrite El, orb_true_r|].
          rewrite (@parse_chars_plain d _ Dq Db Dc).
          rewrite IH; [reflexivity|simpl in Hn; lia|].
          now inversion Hr.
        + rewrite <- app_assoc, parse_chars_unicode_escape, IHr by assumption.
          reflexivity. }
    destruct (JSSet.is_low_surrogate c) eqn:El.
    { rewrite <- app_assoc, parse_chars_unicode_escape, IHr by assumption. reflexivity. }
    cbn [app]. rewrite (@parse_chars_plain c _ Eq Eb Ec), IHr. reflexivity.
Qed.

(** Reading the characters [QuoteJSONString] wrote gives the string back. *)
Lemma parse_quote_chars (s rest : jsstring) :
  Forall (fun c => c < 65536) s ->
  parse_chars (quote_chars s ++ DQUOTE :: rest) = Some (s, rest).
Proof. apply parse_quote_chars_aux with (n := List.length s). lia. Qed.

(** *** Reading back an array of strings *)

Lemma join_cons (sep p : jsstring) (ps : list jsstring) :
  join sep (p :: ps) = p ++ List.concat (map (fun q => sep ++ q) ps).
Proof.
  revert p. induction ps as [|q ps IH]; intros p.
  - simpl. now rewrite app_nil_r.
  - change (join sep (p :: q :: ps)) with (p ++ sep ++ join sep (q :: ps)).
    rewrite IH. simpl. now rewrite <- app_assoc.
Qed.

(** The text [JSON.stringify] writes for an array of strings. *)
Lemma stringify_strings (h : jsstring) (hs : list jsstring) :
  stringify (JArr (map JStr (h :: hs))) =
  LBRACKET :: LF :: SPACE :: SPACE :: quote h
    ++ List.concat (map (fun q => [COMMA; LF; SPACE; SPACE] ++ quote q) hs)
    ++ [LF; RBRACKET].
Proof.
  unfold stringify.
  change (serialize [] (JArr (map JStr (h :: hs)))) with
    ([LBRACKET] ++ [LF] ++ ([] ++ gap)
       ++ join ([COMMA; LF] ++ ([] ++ gap))
            (map (serialize ([] ++ gap)) (map JStr (h :: hs)))
       ++ [LF] ++ [] ++ [RBRACKET]).
  rewrite map_map.
  change (map (fun x => serialize ([] ++ gap) (JStr x)) (h :: hs))
    with (map quote (h :: hs)).
  cbn [map]. rewrite join_cons, map_map. cbn [app gap].
  rewrite <- app_assoc. reflexivity.
Qed.

Lemma parse_value_string_literal (f : nat) (s body : jsstring) :
  skip_ws s = DQUOTE :: body ->
  parse_value (S f) s =
  match parse_chars body with
  | Some (str, rest) => POk (JStr str) rest
  | None => PErr
  end.
Proof. intros E. cbn [parse_value]. rewrite E. reflexivity. Qed.

Lemma parse_value_quoted (f : nat) (h rest : jsstring) :
  valid_string h ->
  parse_value (S f) (LF :: SPACE :: SPACE :: quote h ++ rest) = POk (JStr h) rest.
Proof.
  intros Hh.
  rewrite parse_value_string_literal with (body := quote_chars h ++ DQUOTE :: rest).
  - rewrite parse_quote_chars by assumption. reflexivity.
  - unfold quote. cbn [app]. rewrite <- app_assoc. reflexivity.
Qed.

Lemma parse_elements_comma (f : nat) (acc : list value) (s r : jsstring) :
  skip_ws s = COMMA :: r ->
  parse_elements (S f) acc s =
  match parse_value f r with
  | POk v rest => parse_elements f (acc ++ [v]) rest
  | PErr => PErr
  | PFuel => PFuel
  end.
Proof. intros E. cbn [parse_elements]. rewrite E. reflexivity. Qed.

Lemma parse_elements_strings (hs : list jsstring) :
  forall (f : nat) (acc : list value) (tail : jsstring),
    (2 * List.length hs < f)%nat ->
    Forall valid_string hs ->
    parse_elements f acc
      (List.concat (map (fun q => [COMMA; LF; SPACE; SPACE] ++ quote q) hs)
         ++ LF :: RBRACKET :: tail)
    = POk (JArr (acc ++ map JStr hs)) tail.
Proof.
  induction hs as [|h hs IH]; intros f acc tail Hf Hv.
  - destruct f as [|f]; [simpl in Hf; lia|].
    simpl. now rewrite app_nil_r.
  - destruct f as [|[|f]]; try (simpl in Hf; lia).
    inversion Hv as [|? ? Hh Hv']; subst.
    cbn [map List.concat]. rewrite <- !app_assoc.
    rewrite parse_elements_comma
      with (r := LF :: SPACE :: SPACE :: quote h
                   ++ List.concat
                        (map (fun q => [COMMA; LF; SPACE; SPACE] ++ quote q) hs)
                   ++ LF :: RBRACKET :: tail) by reflexivity.
    rewrite parse_value_quoted by assumption.
    rewrite IH; [|simpl in Hf; lia|assumption].
    rewrite <- app_assoc. reflexivity.
Qed.


Lemma parse_value_bracket (f : nat) (s r r' : jsstring) (c' : N) :
  skip_ws s = LBRACKET :: r ->
  skip_ws r = c' :: r' ->
  (c' =? RBRACKET) = false ->
  parse_value (S f) s =
  match parse_value f r with
  | POk v rest => parse_elements f [v] rest
  | PErr => PErr
  | PFuel => PFuel
  end.
Proof.
  intros E E' Ec. cbn [parse_value]. rewrite E.
  change (LBRACKET =? DQUOTE) with false.
  change (LBRACKET =? LBRACKET) with true.
  cbn match. rewrite E', Ec. reflexivity.
Qed.

Lemma quote_length (h : jsstring) : (2 <= List.length (quote h))%nat.
Proof. unfold quote. cbn [List.length]. rewrite length_app. simpl. lia. Qed.

Lemma elements_length (hs : list jsstring) :
  (2 * List.length hs <=
   List.length (List.concat (map (fun q => [COMMA; LF; SPACE; SPACE] ++ quote q) hs)))%nat.
Proof.
  induction hs as [|h hs IH]; [simpl; lia|].
  cbn [map List.concat]. rewrite !length_app.
  pose proof (quote_length h). cbn [List.length] in *. lia.
Qed.

Lemma parse_value_stringify_strings (hs : list jsstring) (f : nat) (tail : jsstring) :
  (2 * List.length hs < f)%nat ->
  Forall valid_string hs ->
  parse_value f (stringify (JArr (map JStr hs)) ++ tail) = POk (JArr (map JStr hs)) tail.
Proof.
  intros Hf Hv. destruct hs as [|h hs].
  - destruct f as [|f]; [simpl in Hf; lia|]. reflexivity.
  - destruct f as [|[|f]]; try (simpl in Hf; lia).
    inversion Hv as [|? ? Hh Hv']; subst.
    rewrite stringify_strings.
    rewrite parse_value_bracket
      with (r := LF :: SPACE :: SPACE :: quote h
                   ++ (List.concat
                         (map (fun q => [COMMA; LF; SPACE; SPACE] ++ quote q) hs)
                       ++ LF :: RBRACKET :: tail))
           (c' := DQUOTE)
           (r' := quote_chars h ++ [DQUOTE]
                    ++ (List.concat
                          (map (fun q => [COMMA; LF; SPACE; SPACE] ++ quote q) hs)
                        ++ LF :: RBRACKET :: tail)).
    + rewrite parse_value_quoted by assumption.
      rewrite parse_elements_strings; [reflexivity|simpl in Hf; lia|assumption].
    + cbn [app skip_ws is_ws]. simpl. rewrite <- !app_assoc. reflexivity.
    + unfold quote. cbn [app]. rewrite <- !app_assoc. reflexivity.
    + reflexivity.
Qed.

(** [JSON.parse] reads back what [JSON.stringify] wrote for an array of
    strings. *)
Lemma parse_stringify_strings (hs : list jsstring) :
  Forall valid_string hs ->
  parse (stringify (JArr (map JStr hs))) = Normal (JArr (map JStr hs)).
Proof.
  intros Hv. unfold parse.
  rewrite <- (app_nil_r (stringify (JArr (map JStr hs)))) at 2.
  rewrite parse_value_stringify_strings; [reflexivity| |assumption].
  destruct hs as [|h hs]; [simpl; lia|].
  rewrite stringify_strings. cbn [List.length]. rewrite !length_app.
  pose proof (elements_length hs) as L. cbn [List.length]. lia.
Qed.
End ParserFacts.

(** ** The UTF-8 codec *)

Section CodecFacts.
Import Buffer.
Local Open Scope N_scope.

Ltac euclid := zify; Z.to_euclidean_division_equations; lia.

Ltac decide_tests :=
  repeat match goal with
         | |- context [N.eqb ?a ?b] => destruct (N.eqb_spec a b)
         | |- context [N.leb ?a ?b] => destruct (N.leb_spec a b)
         | |- context [N.ltb ?a ?b] => destruct (N.ltb_spec a b)
         end.

Lemma decode_cons (d : decoder) (b : N) (r : t) :
  decode d (b :: r) = fst (step d b) ++ decode (snd (step d b)) r.
Proof. cbn [decode]. destruct (step d b). reflexivity. Qed.

Lemma step_idle (b : N) : step idle b = lead b.
Proof. reflexivity. Qed.

Lemma step_continue (d : decoder) (b : N) :
  bytes_needed d <> 0 ->
  lower_boundary d <= b -> b <= upper_boundary d ->
  step d b =
  if bytes_needed d =? 1 then (utf16 (code_point d * 64 + (b - 128)), idle)
  else ([], {| code_point := code_point d * 64 + (b - 128);
               bytes_needed := bytes_needed d - 1;
               lower_boundary := 128; upper_boundary := 191 |}).
Proof.
  intros Hn Hl Hu. unfold step.
  destruct (N.eqb_spec (bytes_needed d) 0); [contradiction|].
  destruct (N.leb_spec (lower_boundary d) b); [|lia].
  destruct (N.leb_spec b (upper_boundary d)); [|lia].
  reflexivity.
Qed.

Lemma decode_utf8 (cp : N) (rest : t) :
  scalar cp ->
  decode idle (utf8 cp ++ rest) = utf16 cp ++ decode idle rest.
Proof.
  intros Hs. unfold utf8.
  destruct (N.ltb_spec cp 128).
  { cbn [app]. rewrite decode_cons, step_idle. unfold lead.
    destruct (N.leb_spec cp 127); [|lia]. unfold utf16.
    destruct (N.ltb_spec cp 65536); [|lia]. reflexivity. }
  destruct (N.ltb_spec cp 2048).
  { cbn [app]. rewrite decode_cons, step_idle. unfold lead.
    destruct (N.leb_spec (192 + cp / 64) 127); [euclid|].
    destruct (N.leb_spec 194 (192 + cp / 64)); [|euclid].
    destruct (N.leb_spec (192 + cp / 64) 223); [|euclid].
    cbn [andb fst snd app].
    rewrite decode_cons, step_continue; cbn [bytes_needed lower_boundary upper_boundary code_point]; try euclid.
    cbn [N.eqb Pos.eqb fst snd].
    replace ((192 + cp / 64 - 192) * 64 + (128 + cp mod 64 - 128)) with cp by euclid.
    reflexivity. }
  destruct (N.ltb_spec cp 65536).
  { cbn [app]. rewrite decode_cons, step_idle. unfold lead.
    destruct (N.leb_spec (224 + cp / 4096) 127); [euclid|].
    destruct (N.leb_spec 194 (224 + cp / 4096)); [|euclid].
    destruct (N.leb_spec (224 + cp / 4096) 223); [euclid|].
    destruct (N.leb_spec 224 (224 + cp / 4096)); [|euclid].
    destruct (N.leb_spec (224 + cp / 4096) 239); [|euclid].
    cbn [andb fst snd app].
    rewrite decode_cons, step_continue; cbn [bytes_needed lower_boundary upper_boundary code_point];
      try (decide_tests; unfold scalar in Hs; euclid).
    cbn [N.eqb Pos.eqb fst snd app N.sub Pos.sub Pos.pred_double Pos.sub_mask Pos.double_mask Pos.double_pred_mask].
    rewrite decode_cons, step_continue; cbn [bytes_needed lower_boundary upper_boundary code_point]; try euclid.
    cbn [N.eqb Pos.eqb fst snd].
    replace (((224 + cp / 4096 - 224) * 64 + (128 + (cp / 64) mod 64 - 128)) * 64
             + (128 + cp mod 64 - 128)) with cp by euclid.
    unfold utf16. destruct (N.ltb_spec cp 65536); [|lia]. reflexivity. }
  assert (cp < 1114112) by (unfold scalar in Hs; lia).
  cbn [app]. rewrite decode_cons, step_idle. unfold lead.
  destruct (N.leb_spec (240 + cp / 262144) 127); [euclid|].
  destruct (N.leb_spec 194 (240 + cp / 262144)); [|euclid].
  destruct (N.leb_spec (240 + cp / 262144) 223); [euclid|].
  destruct (N.leb_spec 224 (240 + cp / 262144)); [|euclid].
  destruct (N.leb_spec (240 + cp / 262144) 239); [euclid|].
  destruct (N.leb_spec 240 (240 + cp / 262144)); [|euclid].
  destruct (N.leb_spec (240 + cp / 262144) 244); [|euclid].
  cbn [andb fst snd app].
  rewrite decode_cons, step_continue; cbn [bytes_needed lower_boundary upper_boundary code_point];
    try (decide_tests; euclid).
  cbn [N.eqb Pos.eqb fst snd app N.sub Pos.sub Pos.pred_double Pos.sub_mask Pos.double_mask Pos.double_pred_mask].
  rewrite decode_cons, step_continue; cbn [bytes_needed lower_boundary upper_boundary code_point]; try euclid.
  cbn [N.eqb Pos.eqb fst snd app N.sub Pos.sub Pos.pred_double Pos.sub_mask Pos.double_mask Pos.double_pred_mask].
  rewrite decode_cons, step_continue; cbn [bytes_needed lower_boundary upper_boundary code_point]; try euclid.
  cbn [N.eqb Pos.eqb fst snd].
  replace ((((240 + cp / 262144 - 240) * 64 + (128 + (cp / 4096) mod 64 - 128)) * 64
            + (128 + (cp / 64) mod 64 - 128)) * 64 + (128 + cp mod 64 - 128))
    with cp by euclid.
  reflexivity.
Qed.

Lemma well_formed_app (a b : jsstring) :
  well_formed a -> well_formed b -> well_formed (a ++ b).
Proof.
  intros Ha Hb. induction Ha; cbn [app]; [assumption| |].
  - now apply wf_unit.
  - now apply wf_pair.
Qed.

Lemma well_formed_ascii (a : jsstring) :
  Forall (fun c => c < 128) a -> well_formed a.
Proof.
  induction 1 as [|c a Hc _ IH]; [constructor|].
  apply wf_unit; [lia| | |assumption];
    unfold JSSet.is_high_surrogate, JSSet.is_low_surrogate;
    apply andb_false_iff; left; apply N.leb_gt; lia.
Qed.

Lemma toString_from (s : jsstring) :
  well_formed s -> toString (from s) = s.
Proof.
  unfold toString. induction 1 as [|c s Hc Hh Hl Hs IH|c d s Hh Hl Hs IH].
  - reflexivity.
  - cbn [from]. rewrite Hh, Hl, decode_utf8, IH.
    + unfold utf16. destruct (N.ltb_spec c 65536); [reflexivity|lia].
    + unfold scalar. unfold JSSet.is_high_surrogate, JSSet.is_low_surrogate in *.
      apply andb_false_iff in Hh, Hl. rewrite !N.leb_gt in Hh, Hl. lia.
  - cbn [from]. rewrite Hh, Hl.
    unfold JSSet.is_high_surrogate, JSSet.is_low_surrogate in *.
    apply andb_true_iff in Hh, Hl. rewrite !N.leb_le in Hh, Hl.
    rewrite decode_utf8, IH by (unfold scalar; lia).
    unfold utf16.
    destruct (N.ltb_spec (65536 + (c - 55296) * 1024 + (d - 56320)) 65536); [lia|].
    cbn [app]. f_equal; [euclid|]. f_equal. euclid.
Qed.
End CodecFacts.

(** ** The three stages *)

Section StageFacts.
Context `{Float64}.
Variable hasha : Buffer.t -> jsstring.

Lemma isNull_true (file : File) : isNull file = true <-> contents file = NoContents.
Proof. unfold isNull. destruct (contents file); split; congruence. Qed.

Lemma isNull_buffer (file : File) (buf : Buffer.t) :
  contents file = BufferContents buf -> isNull file = false.
Proof. unfold isNull. now intros ->. Qed.

(** Each exported factory builds its stream with [maxConcurrency: 8]. *)
Lemma exported_streams_maxConcurrency :
  maxConcurrency (notLabled (Labelizer hasha) tt) = 8 /\
  maxConcurrency (label (Labelizer hasha) tt) = 8 /\
  maxConcurrency (dump (Labelizer hasha) tt) = 8.
Proof. repeat split. Qed.

(** What the dump stage does with a file that is not null, its contents a
    buffer or a stream: the record file is rewritten, then the reference to
    [cb] throws; [next] is not called. *)
Lemma dump_not_null (file : File) (enc : Encoding)
      (R : Type) (next : Callback R) (w : World) :
  isNull file = false ->
  _dumpToRecordJSON file enc next w =
  (Throw (ReferenceError "cb"),
   {| labeledSet := labeledSet w;
      recordFile := Some (Buffer.from (JSON.stringify (JArr (labeledSet w)))) |}).
Proof.
  intros Hn. unfold _dumpToRecordJSON. rewrite Hn. reflexivity.
Qed.

Lemma dump_with_contents (file : File) (buf : Buffer.t) (enc : Encoding)
      (R : Type) (next : Callback R) (w : World) :
  contents file = BufferContents buf ->
  _dumpToRecordJSON file enc next w =
  (Throw (ReferenceError "cb"),
   {| labeledSet := labeledSet w;
      recordFile := Some (Buffer.from (JSON.stringify (JArr (labeledSet w)))) |}).
Proof.
  intros Hc. apply dump_not_null. now apply isNull_buffer with (buf := buf).
Qed.

(** The filter on a file whose contents are a buffer, whatever the
    callback. *)
Lemma filter_buffer (file : File) (buf : Buffer.t) (enc : Encoding)
      (R : Type) (next : Callback R) (w : World) :
  contents file = BufferContents buf ->
  _filterNotLabled hasha file enc next w =
  if JSSet.has (labeledSet w) (JStr (hasha buf))
  then next None None w
  else next None (Some file) w.
Proof.
  intros Hc. unfold _filterNotLabled.
  rewrite (isNull_buffer _ Hc), Hc.
  unfold hasha_contents, bind, ret, read_labeledSet.
  destruct (JSSet.has (labeledSet w) (JStr (hasha buf))); reflexivity.
Qed.

(** The label transformer on a file whose contents are a buffer. *)
Lemma label_buffer (file : File) (buf : Buffer.t) (enc : Encoding)
      (R : Type) (next : Callback R) (w : World) :
  contents file = BufferContents buf ->
  _labelFile hasha file enc next w =
  next None (Some file)
       {| labeledSet := JSSet.add (labeledSet w) (JStr (hasha buf));
          recordFile := recordFile w |}.
Proof.
  intros Hc. unfold _labelFile. rewrite (isNull_buffer _ Hc), Hc. reflexivity.
Qed.

Lemma write_label_buffer (file : File) (buf : Buffer.t) (w : World) :
  contents file = BufferContents buf ->
  write (label (Labelizer hasha) tt) file w =
  (Normal (Some file),
   {| labeledSet := JSSet.add (labeledSet w) (JStr (hasha buf));
      recordFile := recordFile w |}).
Proof.
  intros Hc. unfold write.
  change (transform (label (Labelizer hasha) tt)) with (_labelFile hasha).
  now rewrite label_buffer with (buf := buf).
Qed.

(** C6: a file whose contents are null is handed to the callback as it is by
    each of the three transformers, in the world they were called in: the
    set and the record file are not read or written, whatever they hold.  So
    each exported stage pushes the file and leaves the world alone. *)
Theorem null_content_passthrough (file : File) (enc : Encoding) (w : World) :
  isNull file = true ->
  (forall (R : Type) (next : Callback R),
      _filterNotLabled hasha file enc next w = next None (Some file) w /\
      _labelFile hasha file enc next w = next None (Some file) w /\
      _dumpToRecordJSON file enc next w = next None (Some file) w) /\
  write (notLabled (Labelizer hasha) tt) file w = (Normal (Some file), w) /\
  write (label (Labelizer hasha) tt) file w = (Normal (Some file), w) /\
  write (dump (Labelizer hasha) tt) file w = (Normal (Some file), w).
Proof.
  intros Hnull. split.
  - intros R next.
    unfold _filterNotLabled, _labelFile, _dumpToRecordJSON.
    rewrite Hnull. auto.
  - unfold write. simpl.
    unfold _filterNotLabled, _labelFile, _dumpToRecordJSON.
    rewrite Hnull. auto.
Qed.

(** C5: for a file with contents, the label stage adds the hash of the
    contents to the set and then hands the file itself to the callback; the
    hash is in the set afterwards, the record file is as before, and the
    exported stage pushes the file: it never drops one. *)
Theorem label_adds_hash_and_forwards (file : File) (buf : Buffer.t)
        (enc : Encoding) (w : World) :
  contents file = BufferContents buf ->
  let w' := {| labeledSet := JSSet.add (labeledSet w) (JStr (hasha buf));
               recordFile := recordFile w |} in
  (forall (R : Type) (next : Callback R),
      _labelFile hasha file enc next w = next None (Some file) w') /\
  JSSet.has (labeledSet w') (JStr (hasha buf)) = true /\
  write (label (Labelizer hasha) tt) file w = (Normal (Some file), w').
Proof.
  intros Hc w'. split; [|split].
  - intros R next. now apply label_buffer.
  - apply has_add_JStr.
  - now apply write_label_buffer.
Qed.

(** C7: adding a hash that was just added changes nothing: the set, and so
    its size, is the same after the second [add] as after the first.  The
    label stage run twice on one file leaves the world it left the first
    time. *)
Theorem add_idempotent (s : JSSet.t) (h : jsstring) :
  JSSet.add (JSSet.add s (JStr h)) (JStr h) = JSSet.add s (JStr h) /\
  JSSet.size (JSSet.add (JSSet.add s (JStr h)) (JStr h)) = JSSet.size (JSSet.add s (JStr h)) /\
  forall (p : string) (buf : Buffer.t) (w : World),
    let file := {| path := p; contents := BufferContents buf |} in
    snd (write (label (Labelizer hasha) tt) file
           (snd (write (label (Labelizer hasha) tt) file w))) =
    snd (write (label (Labelizer hasha) tt) file w).
Proof.
  assert (E : JSSet.add (JSSet.add s (JStr h)) (JStr h) = JSSet.add s (JStr h)).
  { apply add_present. apply has_add_JStr. }
  split; [exact E|split].
  - now rewrite E.
  - intros p buf w file.
    rewrite !write_label_buffer with (buf := buf) by reflexivity.
    cbn [snd labeledSet recordFile].
    f_equal. apply add_present. apply has_add_JStr.
Qed.

(** C10: the dump stage leaves [labeledSet] as it found it, for one file and
    for any sequence of files, with or without contents. *)
Theorem dump_preserves_labeledSet (w : World) :
  (forall file : File,
      labeledSet (snd (write (dump (Labelizer hasha) tt) file w)) = labeledSet w) /\
  (forall files : list File,
      labeledSet (snd (pipe (dump (Labelizer hasha) tt) files w)) = labeledSet w).
Proof.
  assert (W : forall file w0,
             labeledSet (snd (write (dump (Labelizer hasha) tt) file w0)) = labeledSet w0).
  { intros file w0. unfold write. simpl.
    destruct (isNull file) eqn:Hn.
    - unfold _dumpToRecordJSON. rewrite Hn. reflexivity.
    - rewrite dump_not_null by assumption. reflexivity. }
  split; [intros file; apply W|].
  intros files. revert w. induction files as [|c cs IH]; intros w.
  - reflexivity.
  - specialize (W c w). cbn [pipe].
    destruct (write (dump (Labelizer hasha) tt) c w) as [[out|e] w'] eqn:E.
    + specialize (IH w').
      destruct (pipe (dump (Labelizer hasha) tt) cs w') as [[outs err] w''].
      cbn [snd] in *. congruence.
    + exact W.
Qed.

(** C2: in any world, the empty set of a first run included, the filter
    stage given a file with contents hands nothing to the callback when the
    set has the hash of the contents and hands it the file itself when the
    set has not; so the exported stage pushes nothing or the file, and the
    world, the set in it, is the same afterwards.  With the hash of [A] in
    the set and the hash of [B] not in it, the files [A; B] written to the
    stage come out as [B]. *)
Theorem filter_drops_labeled_only (w : World) :
  (forall (file : File) (buf : Buffer.t) (enc : Encoding),
      contents file = BufferContents buf ->
      (forall (R : Type) (next : Callback R),
          _filterNotLabled hasha file enc next w =
          if JSSet.has (labeledSet w) (JStr (hasha buf))
          then next None None w
          else next None (Some file) w) /\
      write (notLabled (Labelizer hasha) tt) file w =
        (Normal (if JSSet.has (labeledSet w) (JStr (hasha buf))
                 then None else Some file), w)) /\
  (forall (A B : File) (a b : Buffer.t),
      contents A = BufferContents a ->
      contents B = BufferContents b ->
      JSSet.has (labeledSet w) (JStr (hasha a)) = true ->
      JSSet.has (labeledSet w) (JStr (hasha b)) = false ->
      pipe (notLabled (Labelizer hasha) tt) [A; B] w = (([B], None), w)).
Proof.
  assert (W : forall f c, contents f = BufferContents c ->
             write (notLabled (Labelizer hasha) tt) f w =
             (Normal (if JSSet.has (labeledSet w) (JStr (hasha c)) then None else Some f), w)).
  { intros f c Hf. unfold write.
    change (transform (notLabled (Labelizer hasha) tt)) with (_filterNotLabled hasha).
    rewrite filter_buffer with (buf := c) by assumption.
    destruct (JSSet.has (labeledSet w) (JStr (hasha c))); reflexivity. }
  split.
  - intros file buf enc Hc. split; [|now apply W].
    intros R next. now apply filter_buffer.
  - intros A B a b HA HB Ha Hb.
    cbn [pipe]. rewrite (W A a HA), Ha, (W B b HB), Hb. reflexivity.
Qed.

(** The worlds the program reaches from a record file of strings keep a set
    of pairwise distinct strings: the label stage preserves that shape. *)
Lemma label_keeps_strings (w : World) (hs : list jsstring) (file : File) :
  labeledSet w = map JStr hs ->
  NoDup hs ->
  exists hs' : list jsstring,
    labeledSet (snd (write (label (Labelizer hasha) tt) file w)) = map JStr hs' /\
    NoDup hs'.
Proof.
  intros Hset Hnd. unfold write. simpl. unfold _labelFile, isNull.
  destruct (contents file) as [|buf|].
  - exists hs. split; assumption.
  - unfold hasha_contents, bind, read_labeledSet, write_labeledSet, done, ret. simpl.
    rewrite Hset.
    destruct (add_keeps_strings (hasha buf) Hnd) as [hs' [E [Hnd' _]]].
    exists hs'. split; assumption.
  - exists hs. split; assumption.
Qed.

End StageFacts.

(** ** The record file *)

Section RecordFacts.
Context `{Float64}.
Import JSON Buffer.
Local Open Scope N_scope.

Lemma hex_char_ascii (d : N) : d < 16 -> hex_char d < 128.
Proof. intros Hd. unfold hex_char. destruct (N.ltb_spec d 10); lia. Qed.

Lemma unicode_escape_well_formed (c : N) : well_formed (unicode_escape c).
Proof.
  apply well_formed_ascii. unfold unicode_escape, BACKSLASH.
  repeat constructor; try lia; apply hex_char_ascii; apply N.mod_lt; lia.
Qed.

Lemma escape_letter_ascii (c e : N) : escape_letter c = Some e -> e < 128.
Proof.
  unfold escape_letter. intros E.
  repeat match type of E with
         | context [N.eqb ?a ?b] =>
           destruct (N.eqb a b); [injection E as <-; reflexivity|]
         end.
  discriminate.
Qed.

Lemma quote_chars_well_formed_aux (n : nat) :
  forall s : jsstring,
    (List.length s <= n)%nat -> valid_string s -> well_formed (quote_chars s).
Proof.
  induction n as [|n IH]; intros s Hn Hs.
  - destruct s; [constructor|simpl in Hn; lia].
  - destruct s as [|c r]; [constructor|].
    simpl in Hn. inversion Hs as [|? ? Hc Hr]; subst.
    assert (IHr : well_formed (quote_chars r)) by (apply IH; [lia|assumption]).
    cbn [quote_chars].
    destruct (escape_letter c) as [e|] eqn:Ee.
    { apply escape_letter_ascii in Ee.
      apply (@well_formed_app [BACKSLASH; e]); [|assumption].
      apply well_formed_ascii. unfold BACKSLASH. repeat constructor; lia. }
    destruct (c <? SPACE).
    { apply well_formed_app; [apply unicode_escape_well_formed|assumption]. }
    destruct (JSSet.is_high_surrogate c) eqn:Eh.
    { destruct r as [|d r']; [apply unicode_escape_well_formed|].
      destruct (JSSet.is_low_surrogate d) eqn:El.
      - apply wf_pair; [assumption|assumption|].
        apply IH; [simpl in Hn; lia|now inversion Hr].
      - apply well_formed_app; [apply unicode_escape_well_formed|assumption]. }
    destruct (JSSet.is_low_surrogate c) eqn:El.
    { apply well_formed_app; [apply unicode_escape_well_formed|assumption]. }
    now apply wf_unit.
Qed.

Lemma quote_well_formed (s : jsstring) : valid_string s -> well_formed (quote s).
Proof.
  intros Hs. unfold quote.
  apply (@well_formed_app [DQUOTE]); [apply well_formed_ascii; repeat constructor|].
  apply well_formed_app.
  - apply quote_chars_well_formed_aux with (n := List.length s); [lia|assumption].
  - apply well_formed_ascii. repeat constructor.
Qed.

(** What [JSON.stringify] writes for an array of strings has no lone
    surrogate, so writing it to a file and reading the file gives it back. *)
Lemma stringify_strings_well_formed (hs : list jsstring) :
  Forall valid_string hs -> well_formed (stringify (JArr (map JStr hs))).
Proof.
  intros Hv. destruct hs as [|h hs].
  - apply well_formed_ascii. repeat constructor.
  - inversion Hv as [|? ? Hh Hv']; subst. rewrite stringify_strings.
    apply (@well_formed_app [LBRACKET; LF; SPACE; SPACE]);
      [apply well_formed_ascii; repeat constructor|].
    apply well_formed_app; [now apply quote_well_formed|].
    apply well_formed_app; [|apply well_formed_ascii; repeat constructor].
    clear Hh Hv. induction Hv' as [|q qs Hq _ IH]; [constructor|].
    cbn [map List.concat].
    apply well_formed_app; [|assumption].
    apply (@well_formed_app [COMMA; LF; SPACE; SPACE]);
      [apply well_formed_ascii; repeat constructor|now apply quote_well_formed].
Qed.

Lemma record_file_read_back (hs : list jsstring) :
  Forall valid_string hs ->
  _getLabeledFiles (Some (Buffer.from (stringify (JArr (map JStr hs)))))
  = Normal (JArr (map JStr hs)).
Proof.
  intros Hv. unfold _getLabeledFiles.
  rewrite toString_from by now apply stringify_strings_well_formed.
  now apply parse_stringify_strings.
Qed.

End RecordFacts.

Section LoadFacts.
Context `{Float64}.

Lemma has_add_all_JStr (l : list value) (s : JSSet.t) (h : jsstring) :
  JSSet.has (JSSet.add_all s l) (JStr h) = true <-> In (JStr h) s \/ In (JStr h) l.
Proof.
  revert s. induction l as [|x l IH]; intros s.
  - simpl. rewrite has_JStr. tauto.
  - change (JSSet.add_all s (x :: l)) with (JSSet.add_all (JSSet.add s x) l).
    rewrite IH. unfold JSSet.add.
    destruct (JSSet.has s x) eqn:E.
    + split; [simpl; tauto|]. intros [Hs|[Hx|Hl]]; auto.
      subst x. left. now apply has_JStr.
    + rewrite in_app_iff. simpl. tauto.
Qed.

Lemma load_parsed (bytes : Buffer.t) (v : value) :
  JSON.parse (Buffer.toString bytes) = Normal v ->
  load (Some bytes) =
  match JSSet.construct v with
  | Normal s => Normal {| labeledSet := s; recordFile := Some bytes |}
  | Throw e => Throw e
  end.
Proof. intros E. unfold load, _getLabeledFiles. now rewrite E. Qed.

(** C3: with no record file the module starts with the empty set; with a
    record file whose text parses to an array, it starts with the set built
    from the elements of the array, which has a string exactly when the array
    has it; with a record file whose text [JSON.parse] rejects, requiring the
    module throws the [SyntaxError] of [JSON.parse]: nothing catches it. *)
Theorem load_record_file (good bad : Buffer.t) (elems : list value) (e : JSError) :
  JSON.parse (Buffer.toString good) = Normal (JArr elems) ->
  JSON.parse (Buffer.toString bad) = Throw e ->
  load None = Normal {| labeledSet := []; recordFile := None |} /\
  load (Some good) =
    Normal {| labeledSet := JSSet.add_all [] elems; recordFile := Some good |} /\
  (forall h : jsstring,
      JSSet.has (JSSet.add_all [] elems) (JStr h) = true <-> In (JStr h) elems) /\
  load (Some bad) = Throw e /\
  e = SyntaxError.
Proof.
  intros Hgood Hbad. repeat split.
  - now rewrite (load_parsed _ Hgood).
  - intros Hh. apply has_add_all_JStr in Hh. now destruct Hh.
  - intros Hin. apply has_add_all_JStr. now right.
  - unfold load, _getLabeledFiles. now rewrite Hbad.
  - now apply parse_throws_SyntaxError in Hbad.
Qed.

(** C9, as amended: a record file whose text parses to an object, a number or
    a boolean makes requiring the module throw a [TypeError]; one that parses
    to [null] gives the empty set; one that parses to a string gives the set
    of the code points of the string; one that parses to an array gives the
    set of its elements. *)
Theorem load_by_top_level_value (bytes : Buffer.t) (v : value) :
  JSON.parse (Buffer.toString bytes) = Normal v ->
  match v with
  | JBool _ | JNum _ | JObj _ => load (Some bytes) = Throw TypeError
  | JNull => load (Some bytes) = Normal {| labeledSet := []; recordFile := Some bytes |}
  | JStr s =>
    load (Some bytes) =
      Normal {| labeledSet := JSSet.add_all [] (map JStr (JSSet.code_points s));
                recordFile := Some bytes |} /\
    forall h : jsstring,
      JSSet.has (JSSet.add_all [] (map JStr (JSSet.code_points s))) (JStr h) = true
      <-> In h (JSSet.code_points s)
  | JArr elems =>
    load (Some bytes) =
      Normal {| labeledSet := JSSet.add_all [] elems; recordFile := Some bytes |}
  end.
Proof.
  intros E. rewrite (load_parsed _ E). destruct v; try reflexivity.
  split; [reflexivity|]. intros h. rewrite has_add_all_JStr, in_map_iff.
  split.
  - intros [[]|[x [Hx Hin]]]. injection Hx as ->. assumption.
  - intros Hin. right. now exists h.
Qed.

(** A record file in the documented format, an array of strings, loads as a
    set of pairwise distinct strings. *)
Lemma load_strings (bytes : Buffer.t) (l : list jsstring) :
  JSON.parse (Buffer.toString bytes) = Normal (JArr (map JStr l)) ->
  exists hs : list jsstring,
    load (Some bytes) = Normal {| labeledSet := map JStr hs; recordFile := Some bytes |}
    /\ NoDup hs.
Proof.
  intros E. rewrite (load_parsed _ E). cbn [JSSet.construct].
  destruct (@add_all_keeps_strings _ l [] (NoDup_nil _)) as [hs [Eh Hnd]].
  exists hs. simpl in Eh. rewrite Eh. split; [reflexivity|assumption].
Qed.

End LoadFacts.

Section RoundTrip.
Context `{Float64}.
Variable hasha : Buffer.t -> jsstring.

(** C4: take a world whose set holds strings of 16-bit code units, pairwise
    distinct as the entries of a [Set] are.  After the dump stage has handled
    a file with contents, requiring the module afresh against the record file
    it wrote succeeds, and the set it starts with holds the same strings in the
    same order, hence the same set whatever the order. *)
Theorem persist_then_load (w : World) (hs : list jsstring) (file : File)
        (buf : Buffer.t) :
  contents file = BufferContents buf ->
  labeledSet w = map JStr hs ->
  NoDup hs ->
  Forall valid_string hs ->
  let persisted := snd (write (dump (Labelizer hasha) tt) file w) in
  exists fresh : World,
    load (recordFile persisted) = Normal fresh /\
    labeledSet fresh = labeledSet w /\
    Permutation (labeledSet fresh) (labeledSet w).
Proof.
  intros Hc Hset Hnd Hv persisted.
  assert (Ew : persisted =
               {| labeledSet := map JStr hs;
                  recordFile :=
                    Some (Buffer.from (JSON.stringify (JArr (map JStr hs)))) |}).
  { unfold persisted, write. simpl.
    rewrite dump_with_contents with (buf := buf) by assumption.
    simpl. now rewrite Hset. }
  exists persisted. rewrite Ew at 1. cbn [recordFile]. unfold load.
  rewrite record_file_read_back by assumption.
  cbn [JSSet.construct].
  rewrite add_all_fresh; [|assumption|intros h _ []].
  rewrite Ew, Hset. repeat split. apply Permutation_refl.
Qed.

End RoundTrip.

(** ** Concrete runs *)

Section Runs.
Import Sample.
Local Open Scope N_scope.

(** C1: the dump stage, given a file with contents, rewrites the record file
    and then throws [ReferenceError: cb is not defined]; the file is not
    pushed.  Here [fileA] goes through the stage in a world whose set holds
    its hash [14]; the record file becomes the array with that string, printed
    with two spaces of indentation. *)
Theorem dump_throws_ReferenceError :
  write (dump (Labelizer checksum) tt) fileA labeledA =
  (Throw (ReferenceError "cb"),
   {| labeledSet := [JStr (lit "14")];
      recordFile := Some [91; 10; 32; 32; 34; 49; 52; 34; 10; 93] |}).
Proof. reflexivity. Qed.

Lemma null_content_passthrough_witness :
  isNull directory = true /\
  write (notLabled (Labelizer checksum) tt) directory labeledA
    = (Normal (Some directory), labeledA) /\
  write (label (Labelizer checksum) tt) directory labeledA
    = (Normal (Some directory), labeledA) /\
  write (dump (Labelizer checksum) tt) directory labeledA
    = (Normal (Some directory), labeledA).
Proof.
  split; [reflexivity|].
  exact (proj2 (@null_content_passthrough lexical checksum directory
                  "utf8"%string labeledA eq_refl)).
Defined.

Lemma label_adds_hash_and_forwards_witness :
  contents fileB = BufferContents (lit "world!") /\
  write (label (Labelizer checksum) tt) fileB labeledA =
  (Normal (Some fileB),
   {| labeledSet := [JStr (lit "14"); JStr (lit "49")]; recordFile := None |}).
Proof.
  split; [reflexivity|].
  exact (proj2 (proj2 (@label_adds_hash_and_forwards lexical checksum fileB
                         (lit "world!") "utf8"%string labeledA eq_refl))).
Defined.

Lemma filter_drops_labeled_only_witness :
  contents fileA = BufferContents (lit "hello") /\
  contents fileB = BufferContents (lit "world!") /\
  JSSet.has (labeledSet labeledA) (JStr (checksum (lit "hello"))) = true /\
  JSSet.has (labeledSet labeledA) (JStr (checksum (lit "world!"))) = false /\
  write (notLabled (Labelizer checksum) tt) fileA
    {| labeledSet := []; recordFile := None |}
    = (Normal (Some fileA), {| labeledSet := []; recordFile := None |}) /\
  write (notLabled (Labelizer checksum) tt) fileA labeledA = (Normal None, labeledA) /\
  pipe (notLabled (Labelizer checksum) tt) [fileA; fileB] labeledA
    = (([fileB], None), labeledA).
Proof.
  do 4 (split; [reflexivity|]).
  split; [|split].
  - exact (proj2 (proj1 (@filter_drops_labeled_only lexical checksum
                           {| labeledSet := []; recordFile := None |})
                    fileA (lit "hello") "utf8"%string eq_refl)).
  - exact (proj2 (proj1 (@filter_drops_labeled_only lexical checksum labeledA)
                    fileA (lit "hello") "utf8"%string eq_refl)).
  - exact (proj2 (@filter_drops_labeled_only lexical checksum labeledA)
             fileA fileB (lit "hello") (lit "world!")
             eq_refl eq_refl eq_refl eq_refl).
Defined.

Lemma load_record_file_witness :
  JSON.parse (Buffer.toString [91; 34; 49; 52; 34; 93]) = Normal (JArr [JStr (lit "14")]) /\
  JSON.parse (Buffer.toString (lit "[1,")) = Throw SyntaxError /\
  load (Some [91; 34; 49; 52; 34; 93])
    = Normal {| labeledSet := [JStr (lit "14")];
                recordFile := Some [91; 34; 49; 52; 34; 93] |} /\
  load (Some (lit "[1,")) = Throw SyntaxError.
Proof.
  do 2 (split; [reflexivity|]).
  destruct (@load_record_file lexical [91; 34; 49; 52; 34; 93] (lit "[1,")
              [JStr (lit "14")] SyntaxError eq_refl eq_refl)
    as [_ [Hgood [_ [Hbad _]]]].
  split; [exact Hgood|exact Hbad].
Defined.

Lemma load_by_top_level_value_witness :
  JSON.parse (Buffer.toString (lit "{}")) = Normal (JObj []) /\
  load (Some (lit "{}")) = Throw TypeError.
Proof.
  split; [reflexivity|].
  exact (@load_by_top_level_value lexical (lit "{}") (JObj []) eq_refl).
Defined.

Lemma persist_then_load_witness :
  contents fileA = BufferContents (lit "hello") /\
  labeledSet labeledA = map JStr [lit "14"] /\
  NoDup [lit "14"] /\
  Forall valid_string [lit "14"] /\
  exists fresh : World,
    load (recordFile (snd (write (dump (Labelizer checksum) tt) fileA labeledA)))
      = Normal fresh /\
    labeledSet fresh = labeledSet labeledA /\
    Permutation (labeledSet fresh) (labeledSet labeledA).
Proof.
  assert (Hnd : NoDup [lit "14"]) by (constructor; [intros []|constructor]).
  assert (Hv : Forall valid_string [lit "14"])
    by (repeat constructor).
  do 4 (split; [first [reflexivity|assumption]|]).
  exact (@persist_then_load lexical checksum labeledA [lit "14"] fileA
           (lit "hello") eq_refl eq_refl Hnd Hv).
Defined.

(** Against C9 as stated: the record file [null] is valid JSON, neither an
    array nor a string, and whatever the numbers are the module loads with the
    empty set instead of throwing. *)
Lemma record_null_loads_empty_set :
  (forall F : Float64,
      @JSON.parse F (Buffer.toString (lit "null")) = Normal JNull /\
      @load F (Some (lit "null"))
        = Normal {| labeledSet := []; recordFile := Some (lit "null") |}) /\
  ~ (exists (F : Float64) (e : JSError), @load F (Some (lit "null")) = Throw e).
Proof.
  split.
  - intros F. split; reflexivity.
  - intros [F [e E]]. discriminate E.
Qed.

(** The parser on texts outside and inside the grammar. *)
Example parse_rejects_trailing_comma :
  JSON.parse (lit "[1,]") = Throw SyntaxError.
Proof. reflexivity. Qed.

Example parse_rejects_empty_text : JSON.parse [] = Throw SyntaxError.
Proof. reflexivity. Qed.

Example parse_rejects_leading_zero : JSON.parse (lit "[01]") = Throw SyntaxError.
Proof. reflexivity. Qed.

Example parse_rejects_second_value : JSON.parse (lit "[] []") = Throw SyntaxError.
Proof. reflexivity. Qed.

Example parse_nested :
  JSON.parse (lit " [ true , [ null ] , -1.5e3 ] ") =
  Normal (JArr [JBool true; JArr [JNull]; JNum (lit "-1.5e3")]).
Proof. reflexivity. Qed.

(** The printer: two hashes, one per line, indented by two spaces. *)
Example stringify_two_hashes :
  JSON.stringify (JArr [JStr (lit "14"); JStr (lit "49")]) =
  [91; 10; 32; 32; 34; 49; 52; 34; 44; 10; 32; 32; 34; 52; 57; 34; 10; 93].
Proof. reflexivity. Qed.

(** A quote, a line feed, the control character 1 and a surrogate on its own
    are escaped; a surrogate pair is kept. *)
Example quote_escapes :
  JSON.quote [34; 10; 1; 55357; 56832; 55357] =
  [34] ++ lit "\" ++ [34] ++ lit "\n\u0001" ++ [55357; 56832] ++ lit "\ud83d" ++ [34].
Proof. reflexivity. Qed.

(** An encoded surrogate is ill-formed UTF-8: each of its bytes is replaced. *)
Example toString_replaces_ill_formed :
  Buffer.toString [237; 160; 128] = [65533; 65533; 65533].
Proof. reflexivity. Qed.

(** A record file holding the JSON string [aab] loads as the set of its
    letters. *)
Example load_string_record :
  load (Some [34; 97; 97; 98; 34]) =
  Normal {| labeledSet := [JStr (lit "a"); JStr (lit "b")];
            recordFile := Some [34; 97; 97; 98; 34] |}.
Proof. reflexivity. Qed.

(** Labeling [fileB] and then filtering it: it is dropped. *)
Example label_then_filter :
  write (notLabled (Labelizer checksum) tt) fileB
    (snd (write (label (Labelizer checksum) tt) fileB labeledA)) =
  (Normal None,
   {| labeledSet := [JStr (lit "14"); JStr (lit "49")]; recordFile := None |}).
Proof. reflexivity. Qed.

(** No record file, the module is loaded, [fileA] is labeled and dumped: the
    record file holds the array of the one hash. *)
Example load_label_dump :
  match load None with
  | Normal w0 =>
    recordFile
      (snd (write (dump (Labelizer checksum) tt) fileA
              (snd (write (label (Labelizer checksum) tt) fileA w0))))
  | Throw _ => None
  end = Some [91; 10; 32; 32; 34; 49; 52; 34; 10; 93].
Proof. reflexivity. Qed.

(** Strings with a quote, a backslash, control characters, a letter outside
    ASCII, a surrogate pair and a surrogate on its own come back as they
    were. *)
Example read_back_awkward_strings :
  _getLabeledFiles
    (Some (Buffer.from
             (JSON.stringify
                (JArr [JStr [34; 92; 8; 0; 31]; JStr [233; 8364; 55357; 56832];
                       JStr [56832; 55357]; JStr []]))))
  = Normal (JArr [JStr [34; 92; 8; 0; 31]; JStr [233; 8364; 55357; 56832];
                  JStr [56832; 55357]; JStr []]).
Proof. reflexivity. Qed.

End Runs.

(** * Beyond single items: whole streams, restarts, the record on disk *)

(** ** The filter and label stages on a sequence of files *)

Section Streams.
Context `{Float64}.
Variable hasha : Buffer.t -> jsstring.

(** The files the filter lets through in a world with set [s]. *)
Local Abbreviation unlabeled s :=
  (fun file : File =>
     match contents file with
     | NoContents => true
     | BufferContents buf => negb (JSSet.has s (JStr (hasha buf)))
     | StreamContents => false
     end).

(** The hashes the label stage adds for a sequence of files. *)
Local Abbreviation hashes files :=
  (flat_map
     (fun file : File =>
        match contents file with
        | BufferContents buf => [JStr (hasha buf)]
        | NoContents | StreamContents => []
        end) files).

(** The contents are null or a buffer. *)
Local Abbreviation no_stream :=
  (fun file : File => contents file <> StreamContents).

Lemma write_notLabled (file : File) (w : World) :
  no_stream file ->
  write (notLabled (Labelizer hasha) tt) file w =
  (Normal (if unlabeled (labeledSet w) file then Some file else None), w).
Proof.
  intros Hs. unfold write.
  change (transform (notLabled (Labelizer hasha) tt)) with (_filterNotLabled hasha).
  destruct (contents file) as [|buf|] eqn:Hc; [| |contradiction].
  - unfold _filterNotLabled, isNull. now rewrite Hc.
  - rewrite filter_buffer with (buf := buf) by assumption.
    destruct (JSSet.has (labeledSet w) (JStr (hasha buf))); reflexivity.
Qed.

Lemma write_notLabled_stream (file : File) (w : World) :
  contents file = StreamContents ->
  write (notLabled (Labelizer hasha) tt) file w = (Throw TypeError, w).
Proof.
  intros Hc. unfold write.
  change (transform (notLabled (Labelizer hasha) tt)) with (_filterNotLabled hasha).
  unfold _filterNotLabled, isNull. now rewrite Hc.
Qed.

Lemma write_label (file : File) (w : World) :
  no_stream file ->
  write (label (Labelizer hasha) tt) file w =
  (Normal (Some file),
   {| labeledSet := JSSet.add_all (labeledSet w) (hashes [file]);
      recordFile := recordFile w |}).
Proof.
  intros Hs. unfold write.
  change (transform (label (Labelizer hasha) tt)) with (_labelFile hasha).
  cbn [flat_map].
  destruct (contents file) as [|buf|] eqn:Hc; [| |contradiction].
  - unfold _labelFile, isNull. rewrite Hc. destruct w. reflexivity.
  - now rewrite label_buffer with (buf := buf).
Qed.

Lemma write_label_stream (file : File) (w : World) :
  contents file = StreamContents ->
  write (label (Labelizer hasha) tt) file w = (Throw TypeError, w).
Proof.
  intros Hc. unfold write.
  change (transform (label (Labelizer hasha) tt)) with (_labelFile hasha).
  unfold _labelFile, isNull. now rewrite Hc.
Qed.

Lemma has_add_mono (s : JSSet.t) (x v : value) :
  JSSet.has s v = true -> JSSet.has (JSSet.add s x) v = true.
Proof.
  intros E. unfold JSSet.add. destruct (JSSet.has s x); [assumption|].
  rewrite has_app, E. reflexivity.
Qed.

Lemma has_add_all_mono (l : list value) (s : JSSet.t) (v : value) :
  JSSet.has s v = true -> JSSet.has (JSSet.add_all s l) v = true.
Proof.
  revert s. induction l as [|x l IH]; intros s E; [assumption|].
  change (JSSet.add_all s (x :: l)) with (JSSet.add_all (JSSet.add s x) l).
  apply IH. now apply has_add_mono.
Qed.

(** [add] and [add_all] keep the list they are given as a prefix of their
    result, whatever the entries are. *)
Lemma add_all_extends (l : list value) (s : JSSet.t) :
  exists added : list value, JSSet.add_all s l = s ++ added.
Proof.
  revert s. induction l as [|x l IH]; intros s.
  - exists []. simpl. now rewrite app_nil_r.
  - change (JSSet.add_all s (x :: l)) with (JSSet.add_all (JSSet.add s x) l).
    destruct (IH (JSSet.add s x)) as [added E]. rewrite E.
    unfold JSSet.add. destruct (JSSet.has s x).
    + now exists added.
    + exists ([x] ++ added). now rewrite app_assoc.
Qed.

Lemma in_hashes (files : list File) (h : jsstring) :
  In (JStr h) (hashes files) <->
  exists (file : File) (buf : Buffer.t),
    In file files /\ contents file = BufferContents buf /\ hasha buf = h.
Proof.
  rewrite in_flat_map. split.
  - intros [file [Hin Hh]].
    destruct (contents file) as [|buf|] eqn:Hc; [destruct Hh| |destruct Hh].
    destruct Hh as [Hh|[]]. injection Hh as <-. now exists file, buf.
  - intros [file [buf [Hin [Hc <-]]]]. exists file. split; [assumption|].
    rewrite Hc. now left.
Qed.

Lemma pipe_label (files : list File) (w : World) :
  Forall no_stream files ->
  pipe (label (Labelizer hasha) tt) files w =
  ((files, None),
   {| labeledSet := JSSet.add_all (labeledSet w) (hashes files);
      recordFile := recordFile w |}).
Proof.
  intros Hs. revert w. induction Hs as [|f fs Hf _ IH]; intros w.
  - destruct w. reflexivity.
  - cbn [pipe]. rewrite write_label by assumption. rewrite IH.
    cbn [labeledSet recordFile flat_map].
    rewrite app_nil_r, add_all_app. reflexivity.
Qed.

Lemma pipe_label_stream (files rest : list File) (s : File) (w : World) :
  Forall no_stream files ->
  contents s = StreamContents ->
  pipe (label (Labelizer hasha) tt) (files ++ s :: rest) w =
  ((files, Some TypeError),
   {| labeledSet := JSSet.add_all (labeledSet w) (hashes files);
      recordFile := recordFile w |}).
Proof.
  intros Hs Hc. revert w. induction Hs as [|f fs Hf _ IH]; intros w.
  - cbn [app pipe]. rewrite write_label_stream by assumption.
    destruct w. reflexivity.
  - cbn [app pipe]. rewrite write_label by assumption. rewrite IH.
    cbn [labeledSet recordFile flat_map].
    rewrite app_nil_r, add_all_app. reflexivity.
Qed.

Lemma pipe_notLabled (files : list File) (w : World) :
  Forall no_stream files ->
  pipe (notLabled (Labelizer hasha) tt) files w =
  ((filter (unlabeled (labeledSet w)) files, None), w).
Proof.
  induction 1 as [|f fs Hf _ IH]; [reflexivity|].
  cbn [pipe filter]. rewrite write_notLabled by assumption. rewrite IH.
  destruct (unlabeled (labeledSet w) f); reflexivity.
Qed.

Lemma pipe_notLabled_stream (files rest : list File) (s : File) (w : World) :
  Forall no_stream files ->
  contents s = StreamContents ->
  pipe (notLabled (Labelizer hasha) tt) (files ++ s :: rest) w =
  ((filter (unlabeled (labeledSet w)) files, Some TypeError), w).
Proof.
  intros Hs Hc. induction Hs as [|f fs Hf _ IH].
  - cbn [app pipe filter]. now rewrite write_notLabled_stream.
  - cbn [app pipe filter]. rewrite write_notLabled by assumption. rewrite IH.
    destruct (unlabeled (labeledSet w) f); reflexivity.
Qed.

(** A sequence of files has no stream in it, or has a first one. *)
Lemma first_stream (files : list File) :
  Forall no_stream files \/
  exists (pre : list File) (s : File) (rest : list File),
    files = pre ++ s :: rest /\ Forall no_stream pre /\ contents s = StreamContents.
Proof.
  induction files as [|f fs [IH|[pre [s [rest [E [Hp Hs]]]]]]].
  - left. constructor.
  - destruct (contents f) eqn:Hc.
    + left. constructor; [congruence|assumption].
    + left. constructor; [congruence|assumption].
    + right. exists [], f, fs. repeat split; [constructor|assumption].
  - destruct (contents f) eqn:Hc.
    + right. exists (f :: pre), s, rest. subst fs.
      repeat split; [constructor; [congruence|assumption]|assumption].
    + right. exists (f :: pre), s, rest. subst fs.
      repeat split; [constructor; [congruence|assumption]|assumption].
    + right. exists [], f, fs. repeat split; [constructor|assumption].
Qed.

(** The set the label stage leaves is the one it found with the hashes of
    the files it handled added: all the files, or those before the first
    stream. *)
Lemma label_world (files : list File) (w : World) :
  exists handled : list File,
    (forall f, In f handled -> In f files) /\
    Forall no_stream handled /\
    (Forall no_stream files -> handled = files) /\
    snd (pipe (label (Labelizer hasha) tt) files w) =
    {| labeledSet := JSSet.add_all (labeledSet w) (hashes handled);
       recordFile := recordFile w |}.
Proof.
  destruct (first_stream files) as [Hs|[pre [s [rest [E [Hp Hs]]]]]].
  - exists files. rewrite pipe_label by assumption. repeat split; auto.
  - exists pre. subst files. rewrite pipe_label_stream by assumption.
    repeat split; auto.
    + intros f Hf. apply in_or_app. now left.
    + intros Hall. apply Forall_app in Hall. destruct Hall as [_ Hall].
      inversion Hall; subst. contradiction.
Qed.

Lemma filter_all_true {A : Type} (f : A -> bool) (l : list A) :
  (forall x, In x l -> f x = true) -> filter f l = l.
Proof.
  induction l as [|a l IH]; intros Hf; [reflexivity|].
  cbn [filter]. rewrite (Hf a (or_introl eq_refl)), IH; [reflexivity|].
  intros x Hx. apply Hf. now right.
Qed.

(** Adding strings that are all entries already changes nothing. *)
Lemma add_all_present (l : list value) (s : JSSet.t) :
  (forall v, In v l -> JSSet.has s v = true) -> JSSet.add_all s l = s.
Proof.
  induction l as [|x l IH]; intros Hl; [reflexivity|].
  change (JSSet.add_all s (x :: l)) with (JSSet.add_all (JSSet.add s x) l).
  rewrite add_present by (apply Hl; now left).
  apply IH. intros v Hv. apply Hl. now right.
Qed.

(** Once the files the filter let through are labeled, the filter lets
    through only the files without contents. *)
Lemma filter_after_label (files : list File) (s : JSSet.t) :
  Forall no_stream files ->
  filter (unlabeled (JSSet.add_all s (hashes (filter (unlabeled s) files)))) files
  = filter isNull files.
Proof.
  intros Hs. apply filter_ext_in. intros f Hin. unfold isNull.
  rewrite Forall_forall in Hs. specialize (Hs f Hin).
  destruct (contents f) as [|buf|] eqn:Hc; [reflexivity| |contradiction].
  apply negb_false_iff.
  destruct (JSSet.has s (JStr (hasha buf))) eqn:E.
  - now apply has_add_all_mono.
  - apply has_add_all_JStr. right. apply in_hashes.
    exists f, buf. repeat split; [|assumption].
    apply filter_In. split; [assumption|]. now rewrite Hc, E.
Qed.

Lemma filter_no_stream (p : File -> bool) (files : list File) :
  Forall no_stream files -> Forall no_stream (filter p files).
Proof.
  intros Hs. apply Forall_forall. intros f Hf. apply filter_In in Hf.
  rewrite Forall_forall in Hs. now apply Hs.
Qed.

(** X1: on a sequence of files whose contents are buffers or null, the
    filter stage pushes, in their order, exactly the files that have no
    contents or whose hash is not in the set; it does not fail and leaves the
    set and the record file as they were.  When a file whose contents are a
    stream follows such a sequence, the stream fails there with the
    [TypeError] of the hashing: the files before it were filtered as said, the
    files after it are not handled, and the world is still unchanged. *)
Theorem notLabled_stream (files : list File) (w : World) :
  Forall no_stream files ->
  pipe (notLabled (Labelizer hasha) tt) files w =
    ((filter (unlabeled (labeledSet w)) files, None), w) /\
  forall (s : File) (rest : list File),
    contents s = StreamContents ->
    pipe (notLabled (Labelizer hasha) tt) (files ++ s :: rest) w =
      ((filter (unlabeled (labeledSet w)) files, Some TypeError), w).
Proof.
  intros Hs. split.
  - induction Hs as [|f fs Hf _ IH]; [reflexivity|].
    cbn [pipe filter]. rewrite write_notLabled by assumption. rewrite IH.
    destruct (contents f) as [|buf|]; [reflexivity| |contradiction].
    destruct (JSSet.has (labeledSet w) (JStr (hasha buf))); reflexivity.
  - intros s rest Hc. induction Hs as [|f fs Hf _ IH].
    + cbn [app pipe filter]. now rewrite write_notLabled_stream.
    + cbn [app pipe filter]. rewrite write_notLabled by assumption. rewrite IH.
      destruct (contents f) as [|buf|]; [reflexivity| |contradiction].
      destruct (JSSet.has (labeledSet w) (JStr (hasha buf))); reflexivity.
Qed.

(** X2: on a sequence of files whose contents are buffers or null, the
    label stage pushes every file, in order, and does not fail; the record
    file is not touched, and the set has gained the hashes of the files with
    contents, added in the order of the files.  When a file whose contents are
    a stream follows such a sequence, the stream fails there with the
    [TypeError] of the hashing, after the files before it were pushed and
    their hashes added. *)
Theorem label_stream (files : list File) (w : World) :
  Forall no_stream files ->
  (fst (pipe (label (Labelizer hasha) tt) files w) = (files, None) /\
   recordFile (snd (pipe (label (Labelizer hasha) tt) files w)) = recordFile w /\
   labeledSet (snd (pipe (label (Labelizer hasha) tt) files w)) =
     JSSet.add_all (labeledSet w) (hashes files)) /\
  forall (s : File) (rest : list File),
    contents s = StreamContents ->
    pipe (label (Labelizer hasha) tt) (files ++ s :: rest) w =
      ((files, Some TypeError),
       {| labeledSet := JSSet.add_all (labeledSet w) (hashes files);
          recordFile := recordFile w |}).
Proof.
  intros Hs. split.
  - revert w. induction Hs as [|f fs Hf _ IH]; intros w; [repeat split|].
    cbn [pipe]. rewrite write_label by assumption.
    destruct (IH {| labeledSet := JSSet.add_all (labeledSet w) (hashes [f]);
                    recordFile := recordFile w |}) as [Eout [Efile Eset]].
    destruct (pipe (label (Labelizer hasha) tt) fs _) as [[outs err] w''].
    cbn [fst snd labeledSet recordFile] in *.
    injection Eout as -> ->. repeat split; [assumption|].
    rewrite Eset. cbn [flat_map]. now rewrite app_nil_r, add_all_app.
  - intros s rest Hc. now apply pipe_label_stream.
Qed.

(** X3: whatever the files are, the label stage removes and moves no entry
    of the set, of any kind: the entries it found are the first entries of the
    set it leaves, in the same order.  After a sequence of files whose
    contents are buffers or null, a string is in the set exactly when it was
    there before or is the hash of one of the files with contents. *)
Theorem label_stream_membership (files : list File) (w : World) :
  (exists added : list value,
      labeledSet (snd (pipe (label (Labelizer hasha) tt) files w))
      = labeledSet w ++ added) /\
  (Forall no_stream files ->
   forall h : jsstring,
     JSSet.has (labeledSet (snd (pipe (label (Labelizer hasha) tt) files w))) (JStr h)
       = true
     <-> JSSet.has (labeledSet w) (JStr h) = true \/
         exists (file : File) (buf : Buffer.t),
           In file files /\ contents file = BufferContents buf /\ hasha buf = h).
Proof.
  split.
  - destruct (label_world files w) as [handled [_ [_ [_ E]]]]. rewrite E.
    cbn [labeledSet]. apply add_all_extends.
  - intros Hs h. rewrite pipe_label by assumption. cbn [snd labeledSet].
    rewrite has_add_all_JStr, has_JStr, in_hashes. reflexivity.
Qed.

(** X4: once the label stage has handled a file, the filter stage drops
    every file with the same contents, whatever its path. *)
Theorem labeled_contents_are_filtered (f g : File) (buf : Buffer.t) (w : World) :
  contents f = BufferContents buf ->
  contents g = BufferContents buf ->
  let w' := snd (write (label (Labelizer hasha) tt) f w) in
  write (notLabled (Labelizer hasha) tt) g w' = (Normal None, w').
Proof.
  intros Hf Hg w'. rewrite write_notLabled by congruence. rewrite Hg.
  replace (JSSet.has (labeledSet w') (JStr (hasha buf))) with true; [reflexivity|].
  symmetry. unfold w'. rewrite write_label by congruence.
  cbn [snd labeledSet flat_map].
  rewrite Hf. apply has_add_all_JStr. right. simpl. now left.
Qed.

(** X5: run the filter and then the label stage over a sequence of files
    whose contents are buffers or null; when the same files come again, the
    filter lets through only those without contents.  When the sequence is
    followed by a file whose contents are a stream, both runs of the filter
    fail at that file, and the second has let through only the files without
    contents before it. *)
Theorem second_run_filters_all (files : list File) (w : World) :
  Forall no_stream files ->
  (let unlabeled_files := fst (fst (pipe (notLabled (Labelizer hasha) tt) files w)) in
   let w' := snd (pipe (label (Labelizer hasha) tt) unlabeled_files w) in
   pipe (notLabled (Labelizer hasha) tt) files w' = ((filter isNull files, None), w')) /\
  forall (s : File) (rest : list File),
    contents s = StreamContents ->
    let unlabeled_files :=
      fst (fst (pipe (notLabled (Labelizer hasha) tt) (files ++ s :: rest) w)) in
    let w' := snd (pipe (label (Labelizer hasha) tt) unlabeled_files w) in
    pipe (notLabled (Labelizer hasha) tt) (files ++ s :: rest) w'
    = ((filter isNull files, Some TypeError), w').
Proof.
  intros Hs. split.
  - intros unlabeled_files w'. rewrite pipe_notLabled by assumption.
    f_equal. f_equal. unfold w', unlabeled_files.
    rewrite pipe_notLabled by assumption. cbn [fst].
    rewrite pipe_label by now apply filter_no_stream.
    cbn [snd labeledSet]. now apply filter_after_label.
  - intros s rest Hc unlabeled_files w'.
    rewrite pipe_notLabled_stream by assumption.
    f_equal. f_equal. unfold w', unlabeled_files.
    rewrite pipe_notLabled_stream by assumption. cbn [fst].
    rewrite pipe_label by now apply filter_no_stream.
    cbn [snd labeledSet]. now apply filter_after_label.
Qed.

(** X8: labeling the same sequence of files a second time changes nothing:
    the world after the second pass is the world after the first. *)
Theorem label_stream_idempotent (files : list File) (w : World) :
  snd (pipe (label (Labelizer hasha) tt) files
         (snd (pipe (label (Labelizer hasha) tt) files w))) =
  snd (pipe (label (Labelizer hasha) tt) files w).
Proof.
  destruct (first_stream files) as [Hs|[pre [s [rest [E [Hp Hs]]]]]].
  - rewrite !pipe_label by assumption. cbn [snd labeledSet recordFile]. f_equal.
    apply add_all_present. intros v Hv.
    apply in_flat_map in Hv. destruct Hv as [f [Hin Hv]].
    destruct (contents f) as [|buf|] eqn:Hc; [destruct Hv| |destruct Hv].
    destruct Hv as [Hv|[]]. subst v. apply has_add_all_JStr. right. apply in_hashes. now exists f, buf.
  - subst files. rewrite !pipe_label_stream by assumption.
    cbn [snd labeledSet recordFile]. f_equal.
    apply add_all_present. intros v Hv.
    apply in_flat_map in Hv. destruct Hv as [f [Hin Hv]].
    destruct (contents f) as [|buf|] eqn:Hc; [destruct Hv| |destruct Hv].
    destruct Hv as [Hv|[]]. subst v. apply has_add_all_JStr. right. apply in_hashes. now exists f, buf.
Qed.

(** X9: with no record file the module loads, and in the world it starts
    with the filter stage lets through every file of a sequence whose contents
    are buffers or null; a file whose contents are a stream makes it fail with
    the [TypeError] of the hashing, the files before it having been pushed. *)
Theorem first_run_passes_everything :
  exists w0 : World,
    load None = Normal w0 /\
    forall files : list File,
      Forall no_stream files ->
      pipe (notLabled (Labelizer hasha) tt) files w0 = ((files, None), w0) /\
      forall (s : File) (rest : list File),
        contents s = StreamContents ->
        pipe (notLabled (Labelizer hasha) tt) (files ++ s :: rest) w0
        = ((files, Some TypeError), w0).
Proof.
  exists {| labeledSet := []; recordFile := None |}. split; [reflexivity|].
  intros files Hs.
  assert (E : filter (unlabeled []) files = files).
  { apply filter_all_true. intros f Hf.
    rewrite Forall_forall in Hs. specialize (Hs f Hf).
    destruct (contents f); [reflexivity|reflexivity|contradiction]. }
  split.
  - rewrite pipe_notLabled by assumption. cbn [labeledSet]. now rewrite E.
  - intros s rest Hc. rewrite pipe_notLabled_stream by assumption.
    cbn [labeledSet]. now rewrite E.
Qed.

End Streams.

(** ** The set as a list of distinct strings, the record on disk, restarts *)

Section DistinctStrings.
Context `{Float64}.

(** Adding strings to a set of pairwise distinct strings appends the new ones
    and keeps the earlier entries where they were. *)
Lemma add_all_appends (l hs : list jsstring) :
  NoDup hs ->
  exists added : list jsstring,
    JSSet.add_all (map JStr hs) (map JStr l) = map JStr (hs ++ added) /\
    NoDup (hs ++ added) /\
    (forall x, In x (hs ++ added) <-> In x hs \/ In x l).
Proof.
  revert hs. induction l as [|h l IH]; intros hs Hnd.
  - exists []. rewrite app_nil_r. repeat split; simpl; tauto.
  - change (JSSet.add_all (map JStr hs) (map JStr (h :: l)))
      with (JSSet.add_all (JSSet.add (map JStr hs) (JStr h)) (map JStr l)).
    unfold JSSet.add. destruct (JSSet.has (map JStr hs) (JStr h)) eqn:E.
    + destruct (IH hs Hnd) as [added [Ea [Hn Hm]]].
      exists added. repeat split; try assumption.
      * intros Hx. apply Hm in Hx. simpl. tauto.
      * intros [Hx|[<-|Hx]]; apply Hm; auto.
        left. apply has_JStr, in_map_iff in E. destruct E as [y [Hy Hin]].
        now injection Hy as ->.
    + assert (Hnd1 : NoDup (hs ++ [h])).
      { apply NoDup_app; [assumption|repeat constructor; intros []|].
        intros x Hin [Hx|[]]. subst x.
        assert (F : JSSet.has (map JStr hs) (JStr h) = true)
          by (apply has_JStr, in_map_iff; eauto).
        congruence. }
      change (map JStr hs ++ [JStr h]) with (map JStr hs ++ map JStr [h]).
      rewrite <- map_app.
      destruct (IH (hs ++ [h]) Hnd1) as [added [Ea [Hn Hm]]].
      exists (h :: added).
      replace (hs ++ h :: added) with ((hs ++ [h]) ++ added)
        by (now rewrite <- app_assoc).
      repeat split; try assumption.
      * intros Hx. apply Hm in Hx. rewrite in_app_iff in Hx. simpl in *. tauto.
      * intros Hx. apply Hm. rewrite in_app_iff. simpl in *. tauto.
Qed.

(** X10: a record file that holds an array of strings, repeated or not,
    loads as a set of pairwise distinct strings that has exactly the strings
    of the array. *)
Theorem load_array_of_strings (bytes : Buffer.t) (l : list jsstring) :
  JSON.parse (Buffer.toString bytes) = Normal (JArr (map JStr l)) ->
  exists hs : list jsstring,
    load (Some bytes) =
      Normal {| labeledSet := map JStr hs; recordFile := Some bytes |} /\
    NoDup hs /\
    (forall h : jsstring, In h hs <-> In h l).
Proof.
  intros E. rewrite (load_parsed _ E). cbn [JSSet.construct].
  destruct (@add_all_appends l [] (NoDup_nil _)) as [added [Ea [Hn Hm]]].
  simpl in Ea, Hn, Hm. exists added. rewrite Ea.
  repeat split; try assumption.
  - intros Hx. apply Hm in Hx. tauto.
  - intros Hx. apply Hm. now right.
Qed.

End DistinctStrings.

Section Restart.
Context `{Float64}.
Variable hasha : Buffer.t -> jsstring.
Import JSON.
Local Open Scope N_scope.

Lemma hashes_are_strings (files : list File) :
  flat_map (fun file : File =>
              match contents file with
              | BufferContents buf => [JStr (hasha buf)]
              | NoContents | StreamContents => []
              end) files =
  map JStr (flat_map (fun file : File =>
                        match contents file with
                        | BufferContents buf => [hasha buf]
                        | NoContents | StreamContents => []
                        end) files).
Proof.
  induction files as [|f fs IH]; [reflexivity|].
  cbn [flat_map]. rewrite map_app, IH. destruct (contents f); reflexivity.
Qed.




(** X12: on a set of pairwise distinct strings the label stage only
    appends.  After a sequence of files whose contents are buffers or null the
    earlier entries are where they were; the entries that follow them are
    exactly the hashes of the files with contents that were not in the set
    before, each once; and the entries are still pairwise distinct. *)
Theorem label_stream_appends (files : list File) (w : World) (hs : list jsstring) :
  labeledSet w = map JStr hs ->
  NoDup hs ->
  Forall (fun file : File => contents file <> StreamContents) files ->
  exists added : list jsstring,
    labeledSet (snd (pipe (label (Labelizer hasha) tt) files w)) = map JStr (hs ++ added) /\
    NoDup (hs ++ added) /\
    (forall h : jsstring,
        In h added <->
        ~ In h hs /\
        exists (file : File) (buf : Buffer.t),
          In file files /\ contents file = BufferContents buf /\ hasha buf = h).
Proof.
  intros Hset Hnd Hs. rewrite pipe_label by assumption. cbn [snd labeledSet].
  rewrite Hset, hashes_are_strings.
  destruct (@add_all_appends _
              (flat_map (fun file : File =>
                           match contents file with
                           | BufferContents buf => [hasha buf]
                           | NoContents | StreamContents => []
                           end) files) hs Hnd) as [added [Ea [Hn Hm]]].
  exists added. split; [assumption|]. split; [assumption|].
  intros h.
  assert (Hfiles :
            In h (flat_map (fun file : File =>
                              match contents file with
                              | BufferContents buf => [hasha buf]
                              | NoContents | StreamContents => []
                              end) files)
            <-> exists (file : File) (buf : Buffer.t),
                In file files /\ contents file = BufferContents buf /\ hasha buf = h).
  { rewrite in_flat_map. split.
    - intros [file [Hin Hh]].
      destruct (contents file) as [|buf|] eqn:Hc; [destruct Hh| |destruct Hh].
      destruct Hh as [Hh|[]]. now exists file, buf.
    - intros [file [buf [Hin [Hc Hh]]]]. exists file. split; [assumption|].
      rewrite Hc. now left. }
  rewrite <- Hfiles. split.
  - intros Hin. split.
    + intros Hold. apply NoDup_app_remove_l in Hn as Hadded.
      clear - Hn Hin Hold.
      induction hs as [|x xs IH]; [destruct Hold|].
      inversion Hn as [|? ? Hnotin Hn']; subst.
      destruct Hold as [->|Hold].
      * apply Hnotin. apply in_or_app. now right.
      * now apply IH.
    + assert (Hall : In h (hs ++ added)) by (apply in_or_app; now right).
      apply Hm in Hall. destruct Hall as [Hold|Hnew]; [|assumption].
      exfalso.
      clear - Hn Hin Hold.
      induction hs as [|x xs IH]; [destruct Hold|].
      inversion Hn as [|? ? Hnotin Hn']; subst.
      destruct Hold as [->|Hold].
      * apply Hnotin. apply in_or_app. now right.
      * now apply IH.
  - intros [Hnot Hnew].
    assert (Hall : In h (hs ++ added)) by (apply Hm; now right).
    apply in_app_or in Hall. destruct Hall; [contradiction|assumption].
Qed.

End Restart.

(** ** The bytes of the record file *)

Section RecordFormat.
Context `{Float64}.
Variable hasha : Buffer.t -> jsstring.
Import JSON.
Local Open Scope N_scope.

(** A printable ASCII character other than the quote and the backslash, as
    the digits of a hexadecimal digest are. *)
Local Abbreviation plain :=
  (fun c : N => 32 <= c /\ c < 127 /\ c <> 34 /\ c <> 92).

Lemma quote_chars_plain (h : jsstring) :
  Forall plain h -> quote_chars h = h.
Proof.
  induction 1 as [|c h [H1 [H2 [H3 H4]]] _ IH]; [reflexivity|].
  cbn [quote_chars].
  assert (Ee : escape_letter c = None).
  { unfold escape_letter, BACKSPACE, TAB, LF, FF, CR, DQUOTE, BACKSLASH.
    repeat match goal with
           | |- context [N.eqb ?a ?b] => destruct (N.eqb_spec a b); [lia|]
           end.
    reflexivity. }
  rewrite Ee. unfold SPACE, JSSet.is_high_surrogate, JSSet.is_low_surrogate.
  destruct (N.ltb_spec c 32); [lia|].
  destruct (N.leb_spec 55296 c); [lia|].
  destruct (N.leb_spec 56320 c); [lia|].
  cbn [andb]. now rewrite IH.
Qed.

Lemma from_ascii (a : jsstring) :
  Forall (fun c => c < 128) a -> Buffer.from a = a.
Proof.
  induction 1 as [|c a Hc _ IH]; [reflexivity|].
  cbn [Buffer.from]. unfold JSSet.is_high_surrogate, JSSet.is_low_surrogate.
  destruct (N.leb_spec 55296 c); [lia|].
  destruct (N.leb_spec 56320 c); [lia|].
  cbn [andb]. unfold Buffer.utf8. destruct (N.ltb_spec c 128); [|lia].
  cbn [app]. now rewrite IH.
Qed.

Lemma plain_ascii (h : jsstring) : Forall plain h -> Forall (fun c => c < 128) h.
Proof. apply Forall_impl. intros c [_ [Hc _]]. lia. Qed.

(** X11: when the set holds strings of plain ASCII characters, the dump
    stage leaves in the record file exactly this text: [[]] for the empty set,
    and otherwise an opening bracket, each string between quotes on a line of
    its own after two spaces, a comma after each but the last, and the closing
    bracket on the last line. *)
Theorem record_file_text (w : World) (hs : list jsstring) (f : File) (buf : Buffer.t) :
  contents f = BufferContents buf ->
  labeledSet w = map JStr hs ->
  Forall (Forall plain) hs ->
  recordFile (snd (write (dump (Labelizer hasha) tt) f w)) =
  Some match hs with
       | [] => [91; 93]
       | h :: t =>
         [91; 10; 32; 32] ++ ([34] ++ h ++ [34])
           ++ List.concat (map (fun q => [44; 10; 32; 32] ++ [34] ++ q ++ [34]) t)
           ++ [10; 93]
       end.
Proof.
  intros Hf Hset Hp. unfold write. simpl.
  rewrite dump_with_contents with (buf := buf) by assumption.
  cbn [snd recordFile]. rewrite Hset. f_equal.
  destruct hs as [|h t]; [reflexivity|].
  inversion Hp as [|? ? Hh Ht]; subst.
  rewrite stringify_strings. unfold quote. rewrite (quote_chars_plain Hh).
  assert (Et : map (fun q => [COMMA; LF; SPACE; SPACE] ++ DQUOTE :: quote_chars q ++ [DQUOTE]) t
               = map (fun q => [44; 10; 32; 32] ++ [34] ++ q ++ [34]) t).
  { apply map_ext_in. intros q Hq. rewrite Forall_forall in Ht.
    now rewrite (quote_chars_plain (Ht q Hq)). }
  rewrite Et.
  apply from_ascii.
  change (Forall (fun c => c < 128)
            ([91; 10; 32; 32] ++ ([34] ++ h ++ [34])
               ++ List.concat (map (fun q => [44; 10; 32; 32] ++ [34] ++ q ++ [34]) t)
               ++ [10; 93])).
  repeat (apply Forall_app; split); try (repeat constructor); try now apply plain_ascii.
  apply Forall_concat. apply Forall_map. rewrite Forall_forall in Ht.
  apply Forall_forall. intros q Hq.
  repeat (apply Forall_app; split); try (repeat constructor).
  apply plain_ascii. now apply Ht.
Qed.

End RecordFormat.

(** ** From the record file to the filter *)

Section RecordedHashes.
Context `{Float64}.
Variable hasha : Buffer.t -> jsstring.

(** X13: when the record file holds an array, the module loads, and its
    filter stage drops a file with contents exactly when the hash of the
    contents is one of the strings of the array; the other files with contents
    are pushed. *)
Theorem recorded_hash_is_filtered (bytes : Buffer.t) (elems : list value)
        (f : File) (buf : Buffer.t) :
  JSON.parse (Buffer.toString bytes) = Normal (JArr elems) ->
  contents f = BufferContents buf ->
  exists w0 : World,
    load (Some bytes) = Normal w0 /\
    (In (JStr (hasha buf)) elems ->
     write (notLabled (Labelizer hasha) tt) f w0 = (Normal None, w0)) /\
    (~ In (JStr (hasha buf)) elems ->
     write (notLabled (Labelizer hasha) tt) f w0 = (Normal (Some f), w0)).
Proof.
  intros E Hf. rewrite (load_parsed _ E). cbn [JSSet.construct].
  eexists. split; [reflexivity|].
  rewrite write_notLabled by congruence. rewrite Hf. cbn [labeledSet].
  destruct (JSSet.has (JSSet.add_all [] elems) (JStr (hasha buf))) eqn:Eh.
  - split; [reflexivity|]. intros Hn. exfalso. apply Hn.
    apply has_add_all_JStr in Eh. destruct Eh as [[]|Eh]. exact Eh.
  - split; [|reflexivity]. intros Hin.
    assert (T : JSSet.has (JSSet.add_all [] elems) (JStr (hasha buf)) = true)
      by (apply has_add_all_JStr; right; exact Hin).
    congruence.
Qed.

End RecordedHashes.

(** ** Concrete runs of the stream properties *)

Section StreamRuns.
Import Sample MoreSamples.
Local Open Scope N_scope.

Lemma labeled_contents_are_filtered_witness :
  contents fileB = BufferContents (lit "world!") /\
  contents copyB = BufferContents (lit "world!") /\
  write (notLabled (Labelizer checksum) tt) copyB
    (snd (write (label (Labelizer checksum) tt) fileB labeledA))
  = (Normal None, snd (write (label (Labelizer checksum) tt) fileB labeledA)).
Proof.
  do 2 (split; [reflexivity|]).
  exact (@labeled_contents_are_filtered lexical checksum fileB copyB
           (lit "world!") labeledA eq_refl eq_refl).
Defined.



Lemma load_array_of_strings_witness :
  JSON.parse (Buffer.toString [91; 34; 49; 52; 34; 44; 34; 49; 52; 34; 93])
    = Normal (JArr (map JStr [lit "14"; lit "14"])) /\
  exists hs : list jsstring,
    load (Some [91; 34; 49; 52; 34; 44; 34; 49; 52; 34; 93]) =
      Normal {| labeledSet := map JStr hs;
                recordFile := Some [91; 34; 49; 52; 34; 44; 34; 49; 52; 34; 93] |} /\
    NoDup hs /\
    (forall h : jsstring, In h hs <-> In h [lit "14"; lit "14"]).
Proof.
  split; [reflexivity|].
  exact (@load_array_of_strings lexical [91; 34; 49; 52; 34; 44; 34; 49; 52; 34; 93]
           [lit "14"; lit "14"] eq_refl).
Defined.

Lemma record_file_text_witness :
  contents fileA = BufferContents (lit "hello") /\
  labeledSet labeledA = map JStr [lit "14"] /\
  Forall (Forall (fun c : N => 32 <= c /\ c < 127 /\ c <> 34 /\ c <> 92)) [lit "14"] /\
  recordFile (snd (write (dump (Labelizer checksum) tt) fileA labeledA)) =
  Some ([91; 10; 32; 32] ++ ([34] ++ lit "14" ++ [34]) ++ [] ++ [10; 93]).
Proof.
  assert (Hp : Forall (Forall (fun c : N => 32 <= c /\ c < 127 /\ c <> 34 /\ c <> 92))
                 [lit "14"])
    by (repeat constructor; discriminate).
  do 3 (split; [first [reflexivity|assumption]|]).
  exact (@record_file_text lexical checksum labeledA [lit "14"] fileA (lit "hello")
           eq_refl eq_refl Hp).
Defined.

Lemma label_stream_appends_witness :
  labeledSet labeledA = map JStr [lit "14"] /\
  NoDup [lit "14"] /\
  Forall (fun file : File => contents file <> StreamContents)
         [fileB; directory; fileA] /\
  exists added : list jsstring,
    labeledSet (snd (pipe (label (Labelizer checksum) tt)
                       [fileB; directory; fileA] labeledA))
      = map JStr ([lit "14"] ++ added) /\
    NoDup ([lit "14"] ++ added) /\
    (forall h : jsstring,
        In h added <->
        ~ In h [lit "14"] /\
        exists (file : File) (buf : Buffer.t),
          In file [fileB; directory; fileA] /\
          contents file = BufferContents buf /\ checksum buf = h).
Proof.
  assert (Hnd : NoDup [lit "14"]) by (constructor; [intros []|constructor]).
  assert (Hs : Forall (fun file : File => contents file <> StreamContents)
                      [fileB; directory; fileA])
    by (repeat constructor; discriminate).
  do 3 (split; [first [reflexivity|assumption]|]).
  exact (@label_stream_appends lexical checksum [fileB; directory; fileA] labeledA
           [lit "14"] eq_refl Hnd Hs).
Defined.

Lemma notLabled_stream_witness :
  Forall (fun file : File => contents file <> StreamContents)
         [fileA; directory; fileB] /\
  pipe (notLabled (Labelizer checksum) tt) [fileA; directory; fileB] labeledA
    = (([directory; fileB], None), labeledA) /\
  pipe (notLabled (Labelizer checksum) tt)
       ([fileA; directory; fileB] ++ streamed :: [fileB]) labeledA
    = (([directory; fileB], Some TypeError), labeledA).
Proof.
  assert (Hs : Forall (fun file : File => contents file <> StreamContents)
                      [fileA; directory; fileB])
    by (repeat constructor; discriminate).
  split; [assumption|].
  destruct (@notLabled_stream lexical checksum [fileA; directory; fileB] labeledA Hs)
    as [Hall Hstream].
  split; [exact Hall|exact (Hstream streamed [fileB] eq_refl)].
Defined.

Lemma label_stream_witness :
  Forall (fun file : File => contents file <> StreamContents)
         [fileB; directory; fileA] /\
  pipe (label (Labelizer checksum) tt)
       ([fileB; directory; fileA] ++ streamed :: [fileB]) labeledA
    = (([fileB; directory; fileA], Some TypeError),
       {| labeledSet := [JStr (lit "14"); JStr (lit "49")]; recordFile := None |}).
Proof.
  assert (Hs : Forall (fun file : File => contents file <> StreamContents)
                      [fileB; directory; fileA])
    by (repeat constructor; discriminate).
  split; [assumption|].
  exact (proj2 (@label_stream lexical checksum [fileB; directory; fileA] labeledA Hs)
           streamed [fileB] eq_refl).
Defined.

Lemma second_run_filters_all_witness :
  Forall (fun file : File => contents file <> StreamContents)
         [fileA; directory; fileB] /\
  pipe (notLabled (Labelizer checksum) tt) [fileA; directory; fileB]
       (snd (pipe (label (Labelizer checksum) tt)
               (fst (fst (pipe (notLabled (Labelizer checksum) tt)
                            [fileA; directory; fileB] labeledA)))
               labeledA))
  = (([directory], None),
     {| labeledSet := [JStr (lit "14"); JStr (lit "49")]; recordFile := None |}).
Proof.
  assert (Hs : Forall (fun file : File => contents file <> StreamContents)
                      [fileA; directory; fileB])
    by (repeat constructor; discriminate).
  split; [assumption|].
  exact (proj1 (@second_run_filters_all lexical checksum [fileA; directory; fileB]
                  labeledA Hs)).
Defined.

Lemma label_stream_membership_witness :
  Forall (fun file : File => contents file <> StreamContents) [fileB; directory] /\
  (JSSet.has (labeledSet (snd (pipe (label (Labelizer checksum) tt)
                                 [fileB; directory] labeledA)))
             (JStr (lit "49")) = true
   <-> JSSet.has (labeledSet labeledA) (JStr (lit "49")) = true \/
       exists (file : File) (buf : Buffer.t),
         In file [fileB; directory] /\
         contents file = BufferContents buf /\ checksum buf = lit "49").
Proof.
  assert (Hs : Forall (fun file : File => contents file <> StreamContents)
                      [fileB; directory])
    by (repeat constructor; discriminate).
  split; [assumption|].
  exact (proj2 (@label_stream_membership lexical checksum [fileB; directory] labeledA)
           Hs (lit "49")).
Defined.

Lemma first_run_passes_everything_witness :
  Forall (fun file : File => contents file <> StreamContents) [fileA; directory] /\
  exists w0 : World,
    load None = Normal w0 /\
    pipe (notLabled (Labelizer checksum) tt) [fileA; directory] w0
      = (([fileA; directory], None), w0) /\
    pipe (notLabled (Labelizer checksum) tt) ([fileA; directory] ++ streamed :: [fileB]) w0
      = (([fileA; directory], Some TypeError), w0).
Proof.
  assert (Hs : Forall (fun file : File => contents file <> StreamContents)
                      [fileA; directory])
    by (repeat constructor; discriminate).
  split; [assumption|].
  destruct (@first_run_passes_everything lexical checksum) as [w0 [El Hp]].
  exists w0. split; [exact El|].
  destruct (Hp [fileA; directory] Hs) as [Hall Hstream].
  split; [exact Hall|exact (Hstream streamed [fileB] eq_refl)].
Defined.

Lemma recorded_hash_is_filtered_witness :
  JSON.parse (Buffer.toString [91; 34; 49; 52; 34; 93]) = Normal (JArr [JStr (lit "14")]) /\
  contents fileA = BufferContents (lit "hello") /\
  exists w0 : World,
    load (Some [91; 34; 49; 52; 34; 93]) = Normal w0 /\
    (In (JStr (checksum (lit "hello"))) [JStr (lit "14")] ->
     write (notLabled (Labelizer checksum) tt) fileA w0 = (Normal None, w0)) /\
    (~ In (JStr (checksum (lit "hello"))) [JStr (lit "14")] ->
     write (notLabled (Labelizer checksum) tt) fileA w0 = (Normal (Some fileA), w0)).
Proof.
  do 2 (split; [reflexivity|]).
  exact (@recorded_hash_is_filtered lexical checksum [91; 34; 49; 52; 34; 93]
           [JStr (lit "14")] fileA (lit "hello") eq_refl eq_refl).
Defined.

End StreamRuns.
